(** * Elder_caretaker: browser-side monitoring modules

    A shallow embedding of the JavaScript controllers of the caretaker
    application (audio monitor, fall-detection UI, face registration and
    the registration form), and the properties of their specification
    that are decided by this code.

    Conventions of the embedding.
    - The child nodes of a DOM element are a [list]; the head is
      [firstChild].
    - [Date.now()] is an integer number of milliseconds ([Z]) that never
      runs backwards; durations are [N]. A timer never fires before its
      deadline.
    - A classifier score is a finite IEEE double.  Every finite double is
      a rational and [>=] on doubles is the order of the rationals, so a
      score is a [Q]; a missing entry of a JS object ([undefined]) is
      [None], and [undefined >= c] is [false].  No double lies strictly
      between the decimal 0.78 (or 0.90) and the double nearest to it, so
      comparing with the exact decimal is comparing with the literal.
    - A handler runs to its end before the next one starts; where it
      awaits a browser promise it takes the settled value of that promise
      as an argument. The camera toggle, whose race matters, is split at
      its [await].
    - The value of a form control is a [string] of ASCII characters, one
      UTF-16 code unit each.  *)

From Stdlib Require Import ZArith QArith Lia String Ascii.
From stdpp Require Import gmap strings list fin_maps pretty.
From Equations Require Import Equations.

(* ===================================================================== *)
(** * Part I: the embedding *)
(* ===================================================================== *)

(** ** The detected-event list (both audio-monitor variants) *)

Module EventList.

(** The [div.detected-event] that [addDetectedEvent] builds: the time
    string comes from the clock, the other two fields from the
    arguments. *)
Record DetectionEvent := mkEvent {
  event_time : Z;
  event_type : string;
  event_confidence : Q
}.

(** A child node of the list element: an element, or text (the white
    space of the markup). [children] sees the elements only, while
    [firstChild] and [lastChild] see every node. *)
Inductive node :=
| TextNode
| Element (e : DetectionEvent).

Definition children (nodes : list node) : list DetectionEvent :=
  omap (fun n => match n with Element e => Some e | TextNode => None end) nodes.

(** [detectedEventList.removeChild(detectedEventList.lastChild)] *)
Definition removeLastChild (nodes : list node) : list node :=
  take (length nodes - 1) nodes.

(** [while (detectedEventList.children.length > 10) removeChild(lastChild)] *)
Equations? keepLast10 (nodes : list node) : list node
  by wf (length nodes) lt :=
  keepLast10 nodes with decide (10 < length (children nodes)) => {
    | left _ := keepLast10 (removeLastChild nodes);
    | right _ := nodes }.
Proof.
  unfold removeLastChild. rewrite length_take.
  destruct nodes; simpl in *; lia.
Qed.

(** [insertBefore(eventElement, firstChild)] when there is a first child,
    [appendChild(eventElement)] otherwise. *)
Definition insertAtTop (e : DetectionEvent) (nodes : list node) : list node :=
  match nodes with
  | firstChild :: _ => Element e :: nodes
  | [] => nodes ++ [Element e]
  end.

Definition addDetectedEvent (now : Z) (label : string) (confidence : Q)
    (nodes : list node) : list node :=
  let eventElement := mkEvent now label confidence in
  keepLast10 (insertAtTop eventElement nodes).

(** A sequence of calls, oldest first. *)
Definition addAll (calls : list DetectionEvent) (nodes : list node)
  : list node :=
  foldl (fun acc c =>
           addDetectedEvent (event_time c) (event_type c) (event_confidence c) acc)
        nodes calls.

End EventList.

(** ** JavaScript strings and numbers used by the handlers *)

Module JS.

(** [String.prototype.toLowerCase] on the ASCII range. *)
Definition lower_ascii (c : ascii) : ascii :=
  let n := nat_of_ascii c in
  if (65 <=? n)%nat && (n <=? 90)%nat then ascii_of_nat (n + 32) else c.

Fixpoint toLowerCase (s : string) : string :=
  match s with
  | EmptyString => EmptyString
  | String c s' => String (lower_ascii c) (toLowerCase s')
  end.

(** [x >= c] where [x] may be [undefined]: [undefined >= c] is [false]. *)
Definition ge_number (x : option Q) (c : Q) : bool :=
  match x with
  | Some v => Qle_bool c v
  | None => false
  end.

(** [ToNumber] of a timestamp slot: [null] converts to 0. *)
Definition toNumber (x : option Z) : Z := default 0%Z x.

(** [a || b] on strings: the empty string is falsy. *)
Definition orElse (a b : string) : string :=
  if decide (a = ""%string) then b else a.

(** [!s] on a string. *)
Definition isEmpty (s : string) : bool := bool_decide (s = ""%string).

(** [parseInt(s)] with no radix, on ASCII text: leading white space is
    skipped, then a sign, then the prefix [0x] or [0X] selects radix 16,
    then the longest run of digits is read; with no digit the result is
    [NaN], here [None]. *)
Definition isWhiteSpace (c : ascii) : bool :=
  let n := nat_of_ascii c in
  ((9 <=? n)%nat && (n <=? 13)%nat) || (n =? 32)%nat.

Fixpoint skipWhiteSpace (s : string) : string :=
  match s with
  | String c rest => if isWhiteSpace c then skipWhiteSpace rest else s
  | EmptyString => s
  end.

Definition digitValue (radix : Z) (c : ascii) : option Z :=
  let n := Z.of_nat (nat_of_ascii c) in
  let v :=
    if ((48 <=? n) && (n <=? 57))%Z then Some (n - 48)%Z
    else if ((97 <=? n) && (n <=? 122))%Z then Some (n - 87)%Z
    else if ((65 <=? n) && (n <=? 90))%Z then Some (n - 55)%Z
    else None in
  v ≫= fun d => if (d <? radix)%Z then Some d else None.

Fixpoint readDigits (radix : Z) (s : string) (acc : option Z) : option Z :=
  match s with
  | String c rest =>
      match digitValue radix c with
      | Some d => readDigits radix rest (Some (default 0 acc * radix + d)%Z)
      | None => acc
      end
  | EmptyString => acc
  end.

Definition parseInt (s : string) : option Z :=
  let s1 := skipWhiteSpace s in
  let '(sign, s2) :=
    match s1 with
    | String "-" rest => ((-1)%Z, rest)
    | String "+" rest => (1%Z, rest)
    | _ => (1%Z, s1)
    end in
  let '(radix, s3) :=
    match s2 with
    | String "0" (String "x" rest) => (16%Z, rest)
    | String "0" (String "X" rest) => (16%Z, rest)
    | _ => (10%Z, s2)
    end in
  (fun n => sign * n)%Z <$> readDigits radix s3 None.

End JS.

(** ** Audio monitor, simple variant: the top-scoring label is logged *)

Module SimpleMonitor.
Import EventList.

Definition DETECTION_THRESHOLD : Q := 0.78.

(** [Math.max(...scores)]; [None] is the [-Infinity] of an empty array. *)
Definition maxScore (scores : list Q) : option Q :=
  match scores with
  | [] => None
  | s :: rest => Some (foldl (fun m x => if Qle_bool m x then x else m) s rest)
  end.

(** [scores.indexOf(maxScore)]: the first position holding the maximum. *)
Fixpoint indexOf (scores : list Q) (m : Q) : option nat :=
  match scores with
  | [] => None
  | s :: rest => if Qeq_bool s m then Some 0%nat else S <$> indexOf rest m
  end.

(** [model.wordLabels()[maxIndex]], printed into the element: a missing
    label prints as the text of [undefined]. *)
Definition labelAt (labels : list string) (i : option nat) : string :=
  default "undefined"%string (i ≫= fun n => labels !! n).

(** The callback given to [model.listen]. *)
Definition listenCallback (now : Z) (labels : list string) (scores : list Q)
    (detectedEventList : list node) : list node :=
  match maxScore scores with
  | Some m =>
      let label := labelAt labels (indexOf scores m) in
      if Qle_bool DETECTION_THRESHOLD m
      then addDetectedEvent now label m detectedEventList
      else detectedEventList
  | None => detectedEventList
  end.

End SimpleMonitor.

(** ** Audio monitor, alerting variant: thresholds, debounce, cooldown *)

Module AudioMonitor.
Import EventList.

Definition DETECTION_THRESHOLD : Q := 0.78.
Definition ALERT_THRESHOLD : Q := 0.90.

(** The two keys of the detection-state objects. *)
Inductive kind := cough | snore.

#[export] Instance kind_eq_dec : EqDecision kind.
Proof. solve_decision. Defined.

Definition kind_name (k : kind) : string :=
  match k with cough => "cough" | snore => "snore" end.

(** [obj[type] = v] on an object with the keys [cough] and [snore]. *)
Definition set_key {A} (k : kind) (v : A) (obj : kind -> A) : kind -> A :=
  fun k' => if decide (k' = k) then v else obj k'.

(** What a handler does to the world outside the component. *)
Inductive effect :=
| Handled (k : kind) (t : Z) (score : Q)       (* handleDetection entered *)
| Alerted (k : kind) (t : Z) (score : Q)       (* alert(...) shown *)
| Recording (k : kind) (score : Q).            (* saveDetectionRecording(...) *)

(** The closure variables of the module, and the part of the browser the
    handlers talk to: the clock, the pending timers ([handle] to
    [(deadline, kind)] of its callback), the next timer handle, and the
    effects so far, newest first. *)
Record World := mkWorld {
  detectionActive : kind -> bool;
  detectionStartTime : kind -> option Z;
  detectionTimeouts : kind -> option nat;
  detectionCounts : kind -> nat;
  totalDetections : nat;
  coughDetections : nat;
  detectedEventList : list node;
  clock : Z;
  timers : gmap nat (Z * kind);
  nextHandle : nat;
  effects : list effect
}.

(** The module as loaded at clock time [t0], on a page whose list element
    has the child nodes [markup]. *)
Definition initial (t0 : Z) (markup : list node) : World :=
  {| detectionActive := fun _ => false;
     detectionStartTime := fun _ => None;
     detectionTimeouts := fun _ => None;
     detectionCounts := fun _ => 0%nat;
     totalDetections := 0;
     coughDetections := 0;
     detectedEventList := markup;
     clock := t0;
     timers := ∅;
     nextHandle := 1;
     effects := [] |}.

(** The test that guards the alert block:
    [!detectionActive[type] || (currentTime - detectionStartTime[type]) > 1000] *)
Definition outsideDebounce (k : kind) (currentTime : Z) (w : World) : bool :=
  negb (detectionActive w k)
  || (1000 <? currentTime - JS.toNumber (detectionStartTime w k))%Z.

(** The alert block of [handleDetection]. The dialog blocks the thread for
    [dwell] milliseconds before the rest of the block runs. *)
Definition alertBlock (k : kind) (score : Q) (currentTime : Z) (dwell : N)
    (w : World) : World :=
  let dismissed := (clock w + Z.of_N dwell)%Z in
  {| detectionActive := set_key k true (detectionActive w);
     detectionStartTime := set_key k (Some currentTime) (detectionStartTime w);
     detectionTimeouts := detectionTimeouts w;
     detectionCounts := set_key k (S (detectionCounts w k)) (detectionCounts w);
     totalDetections := totalDetections w;
     coughDetections := coughDetections w;
     detectedEventList :=
       addDetectedEvent dismissed (kind_name k) score (detectedEventList w);
     clock := dismissed;
     timers := timers w;
     nextHandle := nextHandle w;
     effects := Recording k score :: Alerted k currentTime score :: effects w |}.

(** The counters at the top of [handleDetection]. *)
Definition countDetection (k : kind) (score : Q) (currentTime : Z) (w : World)
  : World :=
  {| detectionActive := detectionActive w;
     detectionStartTime := detectionStartTime w;
     detectionTimeouts := detectionTimeouts w;
     detectionCounts := detectionCounts w;
     totalDetections := S (totalDetections w);
     coughDetections :=
       if bool_decide (k = cough) && Qle_bool DETECTION_THRESHOLD score
       then S (coughDetections w) else coughDetections w;
     detectedEventList := detectedEventList w;
     clock := clock w;
     timers := timers w;
     nextHandle := nextHandle w;
     effects := Handled k currentTime score :: effects w |}.

(** The tail of [handleDetection]: [clearTimeout] of the stored handle,
    then [setTimeout(reset, 2000)]. *)
Definition restartCooldown (k : kind) (w : World) : World :=
  let cleared :=
    match detectionTimeouts w k with
    | Some h => delete h (timers w)
    | None => timers w
    end in
  let h' := nextHandle w in
  {| detectionActive := detectionActive w;
     detectionStartTime := detectionStartTime w;
     detectionTimeouts := set_key k (Some h') (detectionTimeouts w);
     detectionCounts := detectionCounts w;
     totalDetections := totalDetections w;
     coughDetections := coughDetections w;
     detectedEventList := detectedEventList w;
     clock := clock w;
     timers := <[h' := ((clock w + 2000)%Z, k)]> cleared;
     nextHandle := S h';
     effects := effects w |}.

Definition handleDetection (k : kind) (score : Q) (dwell : N) (w : World)
  : World :=
  let currentTime := clock w in
  let w1 := countDetection k score currentTime w in
  let w2 :=
    if Qle_bool ALERT_THRESHOLD score
    then if outsideDebounce k currentTime w1
         then alertBlock k score currentTime dwell w1
         else w1
    else w1 in
  restartCooldown k w2.

(** One of the two statements
    [if (scoresByLabel[type] >= DETECTION_THRESHOLD) handleDetection(type, ...)]. *)
Definition onScore (k : kind) (s : option Q) (dwell : N) (w : World) : World :=
  if JS.ge_number s DETECTION_THRESHOLD
  then match s with
       | Some score => handleDetection k score dwell w
       | None => w
       end
  else w.

(** [labels.forEach((label, index) => scoresByLabel[label.toLowerCase()] = scores[index])];
    storing [undefined] leaves the key reading as [undefined]. *)
Definition scoresByLabel (labels : list string) (scores : list Q)
  : gmap string Q :=
  foldl (fun m '(index, label) =>
           match scores !! index with
           | Some s => <[JS.toLowerCase label := s]> m
           | None => delete (JS.toLowerCase label) m
           end)
        ∅ (imap pair labels).

(** The callback given to [model.listen]: cough first, then snore. *)
Definition listenCallback (labels : list string) (scores : list Q)
    (dwellCough dwellSnore : N) (w : World) : World :=
  let byLabel := scoresByLabel labels scores in
  onScore snore (byLabel !! "snore"%string) dwellSnore
    (onScore cough (byLabel !! "cough"%string) dwellCough w).

(** The callback of the cooldown timer [h]; it runs only when [h] is
    pending and due. *)
Definition timerFires (h : nat) (w : World) : World :=
  match timers w !! h with
  | Some (deadline, k) =>
      if (deadline <=? clock w)%Z
      then {| detectionActive := set_key k false (detectionActive w);
              detectionStartTime := set_key k None (detectionStartTime w);
              detectionTimeouts := detectionTimeouts w;
              detectionCounts := detectionCounts w;
              totalDetections := totalDetections w;
              coughDetections := coughDetections w;
              detectedEventList := detectedEventList w;
              clock := clock w;
              timers := delete h (timers w);
              nextHandle := nextHandle w;
              effects := effects w |}
      else w
  | None => w
  end.

(** Time passing between two tasks of the event loop. *)
Definition elapse (d : N) (w : World) : World :=
  {| detectionActive := detectionActive w;
     detectionStartTime := detectionStartTime w;
     detectionTimeouts := detectionTimeouts w;
     detectionCounts := detectionCounts w;
     totalDetections := totalDetections w;
     coughDetections := coughDetections w;
     detectedEventList := detectedEventList w;
     clock := (clock w + Z.of_N d)%Z;
     timers := timers w;
     nextHandle := nextHandle w;
     effects := effects w |}.

(** The tasks the event loop can run. *)
Inductive task :=
| Elapse (d : N)
| TimerFires (h : nat)
| Score (k : kind) (s : option Q) (dwell : N)
| Listen (labels : list string) (scores : list Q) (dwellCough dwellSnore : N).

Definition run (t : task) (w : World) : World :=
  match t with
  | Elapse d => elapse d w
  | TimerFires h => timerFires h w
  | Score k s dwell => onScore k s dwell w
  | Listen labels scores d1 d2 => listenCallback labels scores d1 d2 w
  end.

(** The worlds the monitor can be in: [initial] followed by tasks. *)
Inductive reachable : World -> Prop :=
| reach_initial t0 markup : reachable (initial t0 markup)
| reach_run t w : reachable w -> reachable (run t w).

(** The times at which an alert for [k] was shown. *)
Definition alertTimes (k : kind) (w : World) : list Z :=
  omap (fun e => match e with
                 | Alerted k' t _ => if decide (k' = k) then Some t else None
                 | _ => None
                 end) (effects w).

(** The effects that [w'] has on top of those of [w]. *)
Definition since (w w' : World) : list effect :=
  take (length (effects w') - length (effects w)) (effects w').

Definition isHandled (k : kind) (e : effect) : bool :=
  match e with Handled k' _ _ => bool_decide (k' = k) | _ => false end.

Definition isAlerted (k : kind) (e : effect) : bool :=
  match e with Alerted k' _ _ => bool_decide (k' = k) | _ => false end.

(** The detection pipeline, resp. the alert, ran for [k] between [w] and [w']. *)
Definition detectionFired (k : kind) (w w' : World) : bool :=
  existsb (isHandled k) (since w w').

Definition alertFired (k : kind) (w w' : World) : bool :=
  existsb (isAlerted k) (since w w').

(** The alert block runs in [handleDetection] exactly under this test. *)
Definition alerts (k : kind) (score : Q) (w : World) : bool :=
  Qle_bool ALERT_THRESHOLD score && outsideDebounce k (clock w) w.

(** What ties the debounce flags and the cooldown timers to the history
    of alerts. Inside [handleDetection] the last clause is suspended for
    the kind being handled, between the alert and the restart of its
    timer: [late] says for which kinds it holds. *)
Record consistent_on (late : kind -> Prop) (w : World) : Prop := {
  alerts_in_past : forall k t, t ∈ alertTimes k w -> (t <= clock w)%Z;
  active_is_latest : forall k, detectionActive w k = true ->
    exists t, detectionStartTime w k = Some t /\ t ∈ alertTimes k w /\
              forall t', t' ∈ alertTimes k w -> (t' <= t)%Z;
  idle_is_cooled : forall k t, detectionActive w k = false ->
    t ∈ alertTimes k w -> (t + 2000 <= clock w)%Z;
  pending_is_stored : forall h dl k, timers w !! h = Some (dl, k) ->
    detectionTimeouts w k = Some h;
  pending_is_old : forall h dl k, timers w !! h = Some (dl, k) ->
    (h < nextHandle w)%nat;
  pending_is_late : forall h dl k t, late k -> timers w !! h = Some (dl, k) ->
    t ∈ alertTimes k w -> (t + 2000 <= dl)%Z
}.

Definition consistent : World -> Prop := consistent_on (fun _ => True).

End AudioMonitor.

(** ** Audio monitor: microphone streams and audio contexts *)

Module AudioSession.

(** The closure variables that hold media objects, and the media objects
    the browser keeps for the page. Objects are named by numbers; a
    source node is named by the stream it reads. A stream is live while
    one of its tracks has not been stopped. *)
Record Session := mkSession {
  isListening : bool;
  audioContext : option nat;
  microphone : option nat;
  setupPending : bool;        (* getUserMedia of setupAudioProcessing unsettled *)
  openContexts : gset nat;    (* contexts whose state is not 'closed' *)
  liveStreams : gset nat;
  connected : gset nat;       (* source nodes connected to an analyser *)
  stopTimers : gset nat;      (* recording streams with a pending 3 s timer *)
  fresh : nat
}.

Definition pageLoaded : Session :=
  {| isListening := false; audioContext := None; microphone := None;
     setupPending := false; openContexts := ∅; liveStreams := ∅;
     connected := ∅; stopTimers := ∅; fresh := 0 |}.

(** [initAudioMonitoring] once the model is loaded: a new context, then
    [setupAudioProcessing] asks for the microphone. *)
Definition initAudioMonitoring (st : Session) : Session :=
  let c := fresh st in
  {| isListening := isListening st;
     audioContext := Some c;
     microphone := microphone st;
     setupPending := true;
     openContexts := {[c]} ∪ openContexts st;
     liveStreams := liveStreams st;
     connected := connected st;
     stopTimers := stopTimers st;
     fresh := S c |}.

(** The [then]/[catch] of [setupAudioProcessing]: on a grant the stream is
    wrapped in a source node and connected. *)
Definition setupSettles (granted : bool) (st : Session) : Session :=
  if setupPending st then
    if granted then
      let s := fresh st in
      {| isListening := isListening st;
         audioContext := audioContext st;
         microphone := Some s;
         setupPending := false;
         openContexts := openContexts st;
         liveStreams := {[s]} ∪ liveStreams st;
         connected := {[s]} ∪ connected st;
         stopTimers := stopTimers st;
         fresh := S s |}
    else
      {| isListening := isListening st;
         audioContext := audioContext st;
         microphone := microphone st;
         setupPending := false;
         openContexts := openContexts st;
         liveStreams := liveStreams st;
         connected := connected st;
         stopTimers := stopTimers st;
         fresh := fresh st |}
  else st.

(** The stop branch of [toggleAudioMonitoring]: [microphone.disconnect()],
    [audioContext.close()] unless already closed, [isListening = false]. *)
Definition stopListening (st : Session) : Session :=
  {| isListening := false;
     audioContext := audioContext st;
     microphone := microphone st;
     setupPending := setupPending st;
     openContexts :=
       match audioContext st with
       | Some c => openContexts st ∖ {[c]}
       | None => openContexts st
       end;
     liveStreams := liveStreams st;
     connected :=
       match microphone st with
       | Some s => connected st ∖ {[s]}
       | None => connected st
       end;
     stopTimers := stopTimers st;
     fresh := fresh st |}.

(** The start branch: a new context, then [getUserMedia({audio: true})];
    on a grant the source node is made and connected and [isListening]
    set, then [model.listen] is awaited. A rejection of either promise
    lands in the [catch], which only resets [isListening]. *)
Definition startListening (granted listenOk : bool) (st : Session) : Session :=
  let c := fresh st in
  if granted then
    let s := S c in
    {| isListening := listenOk;
       audioContext := Some c;
       microphone := Some s;
       setupPending := setupPending st;
       openContexts := {[c]} ∪ openContexts st;
       liveStreams := {[s]} ∪ liveStreams st;
       connected := {[s]} ∪ connected st;
       stopTimers := stopTimers st;
       fresh := S s |}
  else
    {| isListening := false;
       audioContext := Some c;
       microphone := microphone st;
       setupPending := setupPending st;
       openContexts := {[c]} ∪ openContexts st;
       liveStreams := liveStreams st;
       connected := connected st;
       stopTimers := stopTimers st;
       fresh := S c |}.

Definition toggleAudioMonitoring (granted listenOk : bool) (st : Session)
  : Session :=
  if isListening st then stopListening st
  else startListening granted listenOk st.

(** [saveDetectionRecording]: its own [getUserMedia({audio: true})]; on a
    grant a recorder is started on the new stream and a 3000 ms timer is
    set that stops the recorder and the tracks of that stream. *)
Definition saveDetectionRecording (granted : bool) (st : Session) : Session :=
  if granted then
    let r := fresh st in
    {| isListening := isListening st;
       audioContext := audioContext st;
       microphone := microphone st;
       setupPending := setupPending st;
       openContexts := openContexts st;
       liveStreams := {[r]} ∪ liveStreams st;
       connected := connected st;
       stopTimers := {[r]} ∪ stopTimers st;
       fresh := S r |}
  else st.

(** The 3000 ms timer of the recording on stream [r]. *)
Definition recordingTimer (r : nat) (st : Session) : Session :=
  if decide (r ∈ stopTimers st) then
    {| isListening := isListening st;
       audioContext := audioContext st;
       microphone := microphone st;
       setupPending := setupPending st;
       openContexts := openContexts st;
       liveStreams := liveStreams st ∖ {[r]};
       connected := connected st;
       stopTimers := stopTimers st ∖ {[r]};
       fresh := fresh st |}
  else st.

(** The context held in [audioContext] is closed. *)
Definition contextClosed (st : Session) : Prop :=
  forall c, audioContext st = Some c -> c ∉ openContexts st.

(** The sessions the page can be in. *)
Inductive reachable : Session -> Prop :=
| reach_loaded : reachable pageLoaded
| reach_init st : reachable st -> reachable (initAudioMonitoring st)
| reach_setup granted st : reachable st -> reachable (setupSettles granted st)
| reach_toggle granted listenOk st : reachable st ->
    reachable (toggleAudioMonitoring granted listenOk st)
| reach_record granted st : reachable st ->
    reachable (saveDetectionRecording granted st)
| reach_timer r st : reachable st -> reachable (recordingTimer r st).

End AudioSession.

(** ** Fall-detection UI: the camera stream *)

Module VideoFeed.

(** [window.videoStream], the video element, the streams with a live
    track, and the calls of [toggleVideoFeed] suspended at
    [await getUserMedia]. *)
Record Page := mkPage {
  videoStream : option nat;
  srcObject : option nat;
  paused : bool;
  liveStreams : gset nat;
  awaitingCamera : nat;
  fresh : nat
}.

Definition pageLoaded : Page :=
  {| videoStream := None; srcObject := None; paused := true;
     liveStreams := ∅; awaitingCamera := 0; fresh := 0 |}.

(** [stopVideoFeed]: stop every track of the held stream and drop it,
    pause the element and clear its source. *)
Definition stopVideoFeed (p : Page) : Page :=
  {| videoStream := None;
     srcObject := None;
     paused := true;
     liveStreams :=
       match videoStream p with
       | Some s => liveStreams p ∖ {[s]}
       | None => liveStreams p
       end;
     awaitingCamera := awaitingCamera p;
     fresh := fresh p |}.

(** [toggleVideoFeed] up to its [await]: stop when a stream is held, ask
    for the camera otherwise. *)
Definition toggleVideoFeed (p : Page) : Page :=
  match videoStream p with
  | Some _ => stopVideoFeed p
  | None =>
      {| videoStream := videoStream p;
         srcObject := srcObject p;
         paused := paused p;
         liveStreams := liveStreams p;
         awaitingCamera := S (awaitingCamera p);
         fresh := fresh p |}
  end.

(** [toggleVideoFeed] after its [await]: on a grant the stream is stored
    in [window.videoStream] and played; a rejection only sets the status
    text. *)
Definition cameraSettles (granted : bool) (p : Page) : Page :=
  match awaitingCamera p with
  | O => p
  | S n =>
      if granted then
        let s := fresh p in
        {| videoStream := Some s;
           srcObject := Some s;
           paused := false;
           liveStreams := {[s]} ∪ liveStreams p;
           awaitingCamera := n;
           fresh := S s |}
      else
        {| videoStream := videoStream p;
           srcObject := srcObject p;
           paused := paused p;
           liveStreams := liveStreams p;
           awaitingCamera := n;
           fresh := fresh p |}
  end.

(** The click handlers of the live-feed mode button and of the retry
    button: [if (window.videoStream) stopVideoFeed()]. *)
Definition stopIfHeld (p : Page) : Page :=
  match videoStream p with
  | Some _ => stopVideoFeed p
  | None => p
  end.

Inductive action :=
| ClickToggle
| CameraSettles (granted : bool)
| ClickLiveFeed
| ClickRetry.

Definition perform (a : action) (p : Page) : Page :=
  match a with
  | ClickToggle => toggleVideoFeed p
  | CameraSettles granted => cameraSettles granted p
  | ClickLiveFeed => stopIfHeld p
  | ClickRetry => stopIfHeld p
  end.

(** Pages reached when every camera request settles before the next
    click on the toggle. *)
Inductive reachable : Page -> Prop :=
| reach_loaded : reachable pageLoaded
| reach_toggle p : reachable p -> awaitingCamera p = 0 ->
    reachable (perform ClickToggle p)
| reach_settles granted p : reachable p ->
    reachable (perform (CameraSettles granted) p)
| reach_liveFeed p : reachable p -> reachable (perform ClickLiveFeed p)
| reach_retry p : reachable p -> reachable (perform ClickRetry p).

(** What ties [window.videoStream] to the live streams. *)
Definition tidy (p : Page) : Prop :=
  (forall s, s ∈ liveStreams p -> s < fresh p) /\
  match videoStream p with
  | Some s => liveStreams p = {[s]} /\ awaitingCamera p = 0
  | None => liveStreams p = ∅ /\ awaitingCamera p <= 1
  end.

End VideoFeed.

(** ** Fall-detection UI: polling the status of an upload job *)

Module Polling.

(** The JSON of the status endpoint. *)
Record StatusData := mkStatus {
  status : string;
  progress : option Z;
  message : string            (* empty when absent *)
}.

(** How one request to the status endpoint ends. *)
Inductive statusResponse :=
| StatusRejected (reason : string)     (* fetch or response.json() rejects *)
| StatusHttpError (code : nat)         (* !response.ok *)
| StatusOk (d : StatusData).

(** The JSON of the results endpoint: the falls found, as (time, confidence). *)
Record Results := mkResults {
  processed_video : string;
  falls_detected : list (Q * Q)
}.

Inductive resultsResponse :=
| ResultsRejected (reason : string)
| ResultsHttpError (code : nat)
| ResultsOk (r : Results).

(** What the poller does, in order. *)
Inductive effect :=
| FetchStatus (processId : string)
| ShowProgress (percent : Z) (text : string)
| SetTimeout (ms : Z)                  (* setTimeout(() => poll again, ms) *)
| FetchResults (processId : string)
| RenderFalls (falls : list (Q * Q))
| RenderNoFalls
| ShowError (text : string).

(** [showProcessingResults]. *)
Definition showProcessingResults (processId : string) (r : resultsResponse)
  : list effect :=
  FetchResults processId ::
  match r with
  | ResultsRejected reason =>
      [ShowError (JS.orElse reason "Failed to get processing results")]
  | ResultsHttpError code =>
      [ShowError ("Failed to get results: " +:+ pretty code)]
  | ResultsOk res =>
      match falls_detected res with
      | [] => [RenderNoFalls]
      | falls => [RenderFalls falls]
      end
  end.

(** The progress block of [pollProcessingStatus]. *)
Definition updateProgress (d : StatusData) : list effect :=
  match progress d with
  | Some pc => [ShowProgress pc (JS.orElse (message d) "Processing...")]
  | None => []
  end.

(** [pollProcessingStatus], fed with the answers of the status endpoint in
    the order of the requests and with the answer of the results
    endpoint. With no answer left the last request stays open. *)
Fixpoint pollProcessingStatus (processId : string)
    (answers : list statusResponse) (results : resultsResponse) : list effect :=
  FetchStatus processId ::
  match answers with
  | [] => []
  | StatusRejected reason :: _ =>
      [ShowError (JS.orElse reason "Error checking processing status")]
  | StatusHttpError code :: _ =>
      [ShowError ("Failed to get status: " +:+ pretty code)]
  | StatusOk d :: later =>
      updateProgress d ++
      if decide (status d = "completed"%string)
      then showProcessingResults processId results
      else if decide (status d = "error"%string)
      then [ShowError (JS.orElse (message d) "Processing failed")]
      else SetTimeout 2000 :: pollProcessingStatus processId later results
  end.

(** The status has left processing. *)
Definition settled (d : StatusData) : bool :=
  bool_decide (status d = "completed"%string)
  || bool_decide (status d = "error"%string).

Definition isFetchStatus (e : effect) : bool :=
  match e with FetchStatus _ => true | _ => false end.

Definition isFetchResults (e : effect) : bool :=
  match e with FetchResults _ => true | _ => false end.

(** One round of polling that finds the job unsettled. *)
Definition round (processId : string) (d : StatusData) : list effect :=
  FetchStatus processId :: updateProgress d ++ [SetTimeout 2000].

(** The end of polling on a settled status. *)
Definition finish (processId : string) (d : StatusData) (results : resultsResponse)
  : list effect :=
  if decide (status d = "completed"%string)
  then showProcessingResults processId results
  else [ShowError (JS.orElse (message d) "Processing failed")].

(** How many effects of a trace satisfy [f]. *)
Definition count (f : effect -> bool) (trace : list effect) : nat :=
  length (List.filter f trace).

End Polling.

(** ** Face registration: capturing a descriptor *)

Module FaceRegistration.

Definition TIMEOUT_ERROR : string := "Face detection timeout".
Definition MSG_DETECTING : string := "🔍 Detecting face... Please look at the camera".
Definition MSG_NOT_LOADED : string := "❌ Face models not loaded yet".
Definition MSG_SUCCESS : string :=
  "✅ Face captured successfully! The system will recognize you for monitoring.".
Definition MSG_NO_FACE : string :=
  "❌ No face detected. Please ensure your face is visible and well-lit.".
Definition MSG_TOO_LONG : string :=
  "❌ Face detection took too long. Try moving closer to the camera and ensure good lighting, then try again.".
Definition MSG_ERROR : string := "❌ Error capturing face. Please try again.".
Definition MSG_READY : string := "Ready to capture face".
Definition LABEL_CAPTURE : string := "📷 Capture Face".
Definition LABEL_DETECTING : string := "Detecting...".

Inductive severity := info | success | warning | error.

(** The fields of the object and the properties of the elements it
    writes. *)
Record FaceUI := mkFaceUI {
  modelsLoaded : bool;
  isFaceCaptured : bool;
  faceDescriptor : option (list Q);
  captureBtn_disabled : bool;
  captureBtn_text : string;
  captureBtn_display : string;
  retakeBtn_display : string;
  video_display : string;
  canvas_display : string;
  status_text : string;
  status_type : severity
}.

(** How the detection promise of face-api ends, and after how many
    milliseconds. *)
Inductive detection :=
| Found (descriptor : list Q) (after : N)
| NotFound (after : N)                    (* resolves with undefined *)
| Rejects (reason : string) (after : N)
| Pending.                                (* never settles *)

(** The value [Promise.race] settles with. *)
Inductive raced :=
| Resolved (d : option (list Q))
| Rejected (reason : string).

(** [Promise.race] of the detection with the timer that rejects after
    20000 ms: the detection wins when it settles before the timer. *)
Definition race (d : detection) : raced :=
  match d with
  | Found descriptor after =>
      if (after <? 20000)%N then Resolved (Some descriptor)
      else Rejected TIMEOUT_ERROR
  | NotFound after =>
      if (after <? 20000)%N then Resolved None else Rejected TIMEOUT_ERROR
  | Rejects reason after =>
      if (after <? 20000)%N then Rejected reason else Rejected TIMEOUT_ERROR
  | Pending => Rejected TIMEOUT_ERROR
  end.

Definition updateStatus (text : string) (type : severity) (ui : FaceUI) : FaceUI :=
  {| modelsLoaded := modelsLoaded ui;
     isFaceCaptured := isFaceCaptured ui;
     faceDescriptor := faceDescriptor ui;
     captureBtn_disabled := captureBtn_disabled ui;
     captureBtn_text := captureBtn_text ui;
     captureBtn_display := captureBtn_display ui;
     retakeBtn_display := retakeBtn_display ui;
     video_display := video_display ui;
     canvas_display := canvas_display ui;
     status_text := text;
     status_type := type |}.

(** The first statements of the [try]: status, button disabled and
    relabelled. *)
Definition beginDetecting (ui : FaceUI) : FaceUI :=
  let ui := updateStatus MSG_DETECTING info ui in
  {| modelsLoaded := modelsLoaded ui;
     isFaceCaptured := isFaceCaptured ui;
     faceDescriptor := faceDescriptor ui;
     captureBtn_disabled := true;
     captureBtn_text := LABEL_DETECTING;
     captureBtn_display := captureBtn_display ui;
     retakeBtn_display := retakeBtn_display ui;
     video_display := video_display ui;
     canvas_display := canvas_display ui;
     status_text := status_text ui;
     status_type := status_type ui |}.

(** The branch [if (detection)]: descriptor stored, buttons swapped,
    canvas shown instead of the video. *)
Definition storeDetection (descriptor : list Q) (ui : FaceUI) : FaceUI :=
  {| modelsLoaded := modelsLoaded ui;
     isFaceCaptured := true;
     faceDescriptor := Some descriptor;
     captureBtn_disabled := captureBtn_disabled ui;
     captureBtn_text := captureBtn_text ui;
     captureBtn_display := "none";
     retakeBtn_display := "inline-block";
     video_display := "none";
     canvas_display := "block";
     status_text := MSG_SUCCESS;
     status_type := success |}.

(** The [finally]: the button is enabled, and relabelled unless a face is
    captured. *)
Definition resetButton (ui : FaceUI) : FaceUI :=
  {| modelsLoaded := modelsLoaded ui;
     isFaceCaptured := isFaceCaptured ui;
     faceDescriptor := faceDescriptor ui;
     captureBtn_disabled := false;
     captureBtn_text :=
       if isFaceCaptured ui then captureBtn_text ui else LABEL_CAPTURE;
     captureBtn_display := captureBtn_display ui;
     retakeBtn_display := retakeBtn_display ui;
     video_display := video_display ui;
     canvas_display := canvas_display ui;
     status_text := status_text ui;
     status_type := status_type ui |}.

Definition captureFace (d : detection) (ui : FaceUI) : FaceUI :=
  if negb (modelsLoaded ui) then updateStatus MSG_NOT_LOADED error ui
  else
    let ui1 := beginDetecting ui in
    let ui2 :=
      match race d with
      | Resolved (Some descriptor) => storeDetection descriptor ui1
      | Resolved None => updateStatus MSG_NO_FACE error ui1
      | Rejected reason =>
          if decide (reason = TIMEOUT_ERROR)
          then updateStatus MSG_TOO_LONG error ui1
          else updateStatus MSG_ERROR error ui1
      end in
    resetButton ui2.

Definition retakeFace (ui : FaceUI) : FaceUI :=
  {| modelsLoaded := modelsLoaded ui;
     isFaceCaptured := false;
     faceDescriptor := None;
     captureBtn_disabled := false;
     captureBtn_text := LABEL_CAPTURE;
     captureBtn_display := "inline-block";
     retakeBtn_display := "none";
     video_display := "block";
     canvas_display := "none";
     status_text := MSG_READY;
     status_type := info |}.

(** The object after the constructor and a successful [initialize]: the
    models are loaded and the listeners attached, no face is captured,
    and the elements are as the page [markup] and the status updates of
    [initialize] left them. *)
Definition initialized (markup : FaceUI) : FaceUI :=
  {| modelsLoaded := true;
     isFaceCaptured := false;
     faceDescriptor := None;
     captureBtn_disabled := captureBtn_disabled markup;
     captureBtn_text := captureBtn_text markup;
     captureBtn_display := captureBtn_display markup;
     retakeBtn_display := retakeBtn_display markup;
     video_display := video_display markup;
     canvas_display := canvas_display markup;
     status_text := status_text markup;
     status_type := status_type markup |}.

(** The capture button can be clicked: it is shown and enabled. *)
Definition clickable (ui : FaceUI) : Prop :=
  captureBtn_display ui <> "none"%string /\ captureBtn_disabled ui = false.

(** The states reached by clicks: a capture attempt needs a clickable
    button. *)
Inductive reachable : FaceUI -> Prop :=
| reach_initialized markup : reachable (initialized markup)
| reach_capture d ui : reachable ui -> clickable ui ->
    reachable (captureFace d ui)
| reach_retake ui : reachable ui -> reachable (retakeFace ui).

(** The detection has produced nothing 20 seconds after it started. *)
Definition noResultWithin20s (d : detection) : Prop :=
  match d with
  | Found _ after | NotFound after | Rejects _ after => (20000 < after)%N
  | Pending => True
  end.

End FaceRegistration.

(** ** Registration form: validation, signup and report upload *)

Module RegistrationForm.

(** The controls of one [.care-recipient] block. The report input is
    [None] when the block has no such control, else the selected files. *)
Record RecipientDiv := mkDiv {
  recipient_name : string;
  recipient_email : string;
  recipient_phone : string;
  recipient_age : string;
  recipient_gender : string;
  recipient_condition : string;
  recipient_report : option (list string)
}.

Record Form := mkForm {
  full_name : string;
  email : string;
  username : string;
  phone_number : string;
  password : string;
  recipientDivs : list RecipientDiv
}.

(** An entry of [care_recipients] in the payload; [age] is [None] for NaN. *)
Record CareRecipient := mkRecipient {
  cr_full_name : string;
  cr_email : string;
  cr_phone_number : string;
  cr_age : option Z;
  cr_gender : string;
  cr_respiratory_condition_status : bool
}.

Record Payload := mkPayload {
  p_full_name : string;
  p_email : string;
  p_username : string;
  p_phone_number : string;
  p_password : string;
  care_recipients : list CareRecipient
}.

Definition ERR_CARETAKER : string := "Please fill out all the main caretaker fields.".
Definition ERR_GENDER : string := "Please select a gender for all care recipients".
Definition ERR_NAME : string := "Full name is required for all care recipients".
Definition ERR_EMAIL : string := "Email is required for all care recipients".
Definition ERR_PHONE : string :=
  "Valid 10-digit phone number is required for all care recipients".
Definition ERR_AGE : string := "Valid age is required for all care recipients".

(** [!recipient.phone_number || recipient.phone_number.length !== 10], negated. *)
Definition phoneOk (phone : string) : bool :=
  negb (JS.isEmpty phone || negb (String.length phone =? 10)%nat).

(** [!recipient.age || isNaN(recipient.age)], negated: NaN and 0 are falsy. *)
Definition ageOk (age : option Z) : bool :=
  match age with
  | Some n => negb (n =? 0)%Z
  | None => false
  end.

(** The body of the [forEach] callback for one block, once no error has
    been found before: the error it sets, or the recipient it pushes. *)
Definition checkRecipient (div : RecipientDiv) : string + CareRecipient :=
  let gender := recipient_gender div in
  if JS.isEmpty gender then inl ERR_GENDER
  else
    let recipient :=
      {| cr_full_name := recipient_name div;
         cr_email := recipient_email div;
         cr_phone_number := recipient_phone div;
         cr_age := JS.parseInt (recipient_age div);
         cr_gender := gender;
         cr_respiratory_condition_status :=
           bool_decide (recipient_condition div = "true"%string) |} in
    if JS.isEmpty (cr_full_name recipient) then inl ERR_NAME
    else if JS.isEmpty (cr_email recipient) then inl ERR_EMAIL
    else if negb (phoneOk (cr_phone_number recipient)) then inl ERR_PHONE
    else if negb (ageOk (cr_age recipient)) then inl ERR_AGE
    else inr recipient.

(** The [forEach] callback on the pair of [validationError] and
    [formData.care_recipients]: it returns at once when an error has been
    found. *)
Definition forEachBody (state : option string * list CareRecipient)
    (div : RecipientDiv) : option string * list CareRecipient :=
  let '(validationError, pushed) := state in
  match validationError with
  | Some _ => (validationError, pushed)
  | None =>
      match checkRecipient div with
      | inl e => (Some e, pushed)
      | inr r => (None, pushed ++ [r])
      end
  end.

(** [recipientDivs.forEach(...)]. *)
Definition checkRecipients (divs : list RecipientDiv)
  : option string * list CareRecipient :=
  foldl forEachBody (None, []) divs.

(** The test on the caretaker fields. *)
Definition caretakerMissing (f : Form) : bool :=
  JS.isEmpty (full_name f) || JS.isEmpty (email f) || JS.isEmpty (username f)
  || JS.isEmpty (phone_number f) || JS.isEmpty (password f).

(** The validation part of the handler: the message of the [Error] it
    throws, or the payload it goes on to send. *)
Definition validate (f : Form) : string + Payload :=
  if caretakerMissing f then inl ERR_CARETAKER
  else
    match checkRecipients (recipientDivs f) with
    | (Some e, _) => inl e
    | (None, pushed) =>
        inr {| p_full_name := full_name f; p_email := email f;
               p_username := username f; p_phone_number := phone_number f;
               p_password := password f; care_recipients := pushed |}
    end.

(** A block passes validation: the callback pushes its recipient. *)
Definition passes (div : RecipientDiv) : bool :=
  match checkRecipient div with inr _ => true | inl _ => false end.

(** The recipients pushed for the blocks that pass. *)
Definition pushedFor (divs : list RecipientDiv) : list CareRecipient :=
  omap (fun div => match checkRecipient div with
                   | inr r => Some r
                   | inl _ => None
                   end) divs.

(** How the signup request ends. Absent [detail] and [access_token] are
    empty strings, an absent recipient list is empty. *)
Inductive signupResponse :=
| SignupRejected (reason : string)
| SignupHttp (ok : bool) (detail : string) (access_token : string)
             (created : list nat).

(** How the upload of one report ends. *)
Inductive uploadResponse :=
| UploadRejected (reason : string)
| UploadHttpError (detail : string)
| UploadOk.

Inductive effect :=
| Alert (text : string)
| PostSignup (body : Payload)
| StoreToken (token : string)
| PostReport (recipientId : nat) (file : string)
| Redirect (url : string).

Definition isNetworkCall (e : effect) : bool :=
  match e with PostSignup _ | PostReport _ _ => true | _ => false end.

(** [fileInput && fileInput.files && fileInput.files.length > 0], then
    [fileInput.files[0]]. *)
Definition selectedFile (div : RecipientDiv) : option string :=
  recipient_report div ≫= head.

(** The message of the error thrown out of the upload [try]. *)
Definition uploadError (r : uploadResponse) : option string :=
  match r with
  | UploadOk => None
  | UploadHttpError detail =>
      Some ("Failed to upload medical report: "
            +:+ ("Failed to upload report: " +:+ JS.orElse detail "Unknown error"))
  | UploadRejected reason => Some ("Failed to upload medical report: " +:+ reason)
  end.

(** The upload loop from index [i] on:
    [for (; i < recipientDivsAfter.length && i < createdRecipients.length; i++)].
    [answers i] is how the upload made at index [i] ends. The result is
    the requests made and the message of the error thrown, if any. *)
Equations? uploadReports (i : nat) (divs : list RecipientDiv)
    (created : list nat) (answers : nat -> uploadResponse)
  : list effect * option string by wf (length divs - i) lt :=
  uploadReports i divs created answers
    with decide (i < length divs /\ i < length created) => {
    | right _ := ([], None);
    | left _ with divs !! i, created !! i => {
      | Some div, Some id with selectedFile div => {
        | Some file with uploadError (answers i) => {
          | Some e := ([PostReport id file], Some e);
          | None :=
              let '(later, err) := uploadReports (S i) divs created answers in
              (PostReport id file :: later, err) };
        | None := uploadReports (S i) divs created answers };
      | _, _ := ([], None) } }.
Proof. all: lia. Qed.

Definition MSG_REGISTERING : string := "Registering... Please wait.".
Definition MSG_FAILED : string := "Registration failed. Please try again.".
Definition MSG_GENERIC : string :=
  "An error occurred. Please check the browser console for details.".
Definition MSG_DONE : string :=
  "Registration successful! You are now logged in. Redirecting to dashboard.".

(** The submit handler: what it does, in order. *)
Definition submit (f : Form) (signup : signupResponse)
    (answers : nat -> uploadResponse) : list effect :=
  Alert MSG_REGISTERING ::
  match validate f with
  | inl e => [Alert e]
  | inr body =>
      PostSignup body ::
      match signup with
      | SignupRejected reason => [Alert (JS.orElse reason MSG_GENERIC)]
      | SignupHttp false detail _ _ => [Alert (JS.orElse detail MSG_FAILED)]
      | SignupHttp true _ token created =>
          (if JS.isEmpty token then [] else [StoreToken token]) ++
          let '(requests, err) :=
            uploadReports 0 (recipientDivs f) created answers in
          requests ++
          match err with
          | Some e => [Alert e]
          | None => [Alert MSG_DONE; Redirect "profile.html"]
          end
      end
  end.

(** The upload that the block at some index is paired with: the id at the
    same index of the created recipients, when the block has a file. *)
Definition pairedUpload (pair : RecipientDiv * nat) : option effect :=
  (fun file => PostReport pair.2 file) <$> selectedFile pair.1.

End RegistrationForm.

(** ** Alerting monitor: runs of tasks and what they leave behind *)

Module AudioMonitorTrace.
Import EventList AudioMonitor.

(** The tasks [ts], oldest first, run from [w]. *)
Definition runAll (ts : list task) (w : World) : World :=
  foldl (fun acc t => run t acc) w ts.

(** Label and score of every alert so far, newest first. *)
Definition alertLog (w : World) : list (string * Q) :=
  omap (fun e => match e with
                 | Alerted k _ score => Some (kind_name k, score)
                 | _ => None
                 end) (effects w).

(** Label and confidence of the elements of a child list, first child
    first. *)
Definition shown (nodes : list node) : list (string * Q) :=
  (fun e => (event_type e, event_confidence e)) <$> children nodes.

Definition isAnyHandled (e : effect) : bool :=
  match e with Handled _ _ _ => true | _ => false end.

Definition isRecording (k : kind) (e : effect) : bool :=
  match e with Recording k' _ => bool_decide (k' = k) | _ => false end.

(** How many effects so far satisfy [f]. *)
Definition occurrences (f : effect -> bool) (w : World) : nat :=
  length (List.filter f (effects w)).

(** What the counters count. *)
Definition counted (w : World) : Prop :=
  totalDetections w = occurrences isAnyHandled w /\
  coughDetections w = occurrences (isHandled cough) w /\
  coughDetections w <= totalDetections w /\
  forall k, detectionCounts w k = length (alertTimes k w) /\
            occurrences (isRecording k) w = length (alertTimes k w).

(** The list against the alert log, for a page that started with the
    entries [m]. *)
Definition showsLastTen (m : list (string * Q)) (w : World) : Prop :=
  shown (detectedEventList w) =
  match alertLog w with
  | [] => m
  | _ :: _ => take 10 (alertLog w ++ m)
  end.

End AudioMonitorTrace.

(** ** Audio monitor: sequences of operations on the media objects *)

Module AudioSessionOps.
Import AudioSession.

(** What can happen to the session: the handlers and the callbacks of the
    browser. *)
Inductive operation :=
| InitAudioMonitoring
| SetupSettles (granted : bool)
| ToggleAudioMonitoring (granted listenOk : bool)
| SaveDetectionRecording (granted : bool)
| RecordingTimer (r : nat).

Definition apply (o : operation) (st : Session) : Session :=
  match o with
  | InitAudioMonitoring => initAudioMonitoring st
  | SetupSettles granted => setupSettles granted st
  | ToggleAudioMonitoring granted listenOk =>
      toggleAudioMonitoring granted listenOk st
  | SaveDetectionRecording granted => saveDetectionRecording granted st
  | RecordingTimer r => recordingTimer r st
  end.

(** The operations [os], oldest first, from [st]. *)
Definition applyAll (os : list operation) (st : Session) : Session :=
  foldl (fun acc o => apply o acc) st os.

(** The numbers in use are below [fresh], and the stream behind the
    source node has no stop timer. *)
Definition numbered (st : Session) : Prop :=
  (forall s, s ∈ liveStreams st -> s < fresh st) /\
  (forall s, s ∈ stopTimers st -> s < fresh st) /\
  (forall s, microphone st = Some s -> s < fresh st /\ s ∉ stopTimers st).


End AudioSessionOps.

(** ** Polling: kinds of effects and of answers *)

Module PollingTrace.
Import Polling.



(** The text of the error panel for a status request that fails, [None]
    for an answer that carries a status. *)
Definition failureText (r : statusResponse) : option string :=
  match r with
  | StatusRejected reason =>
      Some (JS.orElse reason "Error checking processing status")
  | StatusHttpError code => Some ("Failed to get status: " +:+ pretty code)
  | StatusOk _ => None
  end.


End PollingTrace.

(** ** Fall-detection UI, second flow: [VideoMonitoring.processVideo] *)

Module VideoMonitoring.

(** The fields of the object and the properties of the elements it
    writes. [fallAlerts] is the list of alert elements, oldest first. *)
Record Monitor := mkMonitor {
  token : string;                 (* read from localStorage at construction *)
  selectedFile : option string;   (* videoUpload.files[0] *)
  fallAlerts : list string;
  spinnerHidden : bool;           (* class d-none on the spinner *)
  processText : string;
  processDisabled : bool;
  resultShown : bool;             (* resultSection.style.display = 'block' *)
  processedVideoSrc : string
}.

(** How the request ends: the fetch or [response.json()] rejects, or the
    body is read (the handler does not look at [response.ok]). *)
Inductive processResponse :=
| ProcessRejected (reason : string)
| ProcessJson (status processed_video message : string).

Inductive request :=
| PostVideo (bearer file : string).

Definition showLoading (show : bool) (m : Monitor) : Monitor :=
  {| token := token m; selectedFile := selectedFile m;
     fallAlerts := fallAlerts m;
     spinnerHidden := negb show;
     processText := if show then "Processing..." else "Process Video";
     processDisabled := show;
     resultShown := resultShown m;
     processedVideoSrc := processedVideoSrc m |}.

Definition showAlert (message : string) (m : Monitor) : Monitor :=
  {| token := token m; selectedFile := selectedFile m;
     fallAlerts := fallAlerts m ++ [message];
     spinnerHidden := spinnerHidden m; processText := processText m;
     processDisabled := processDisabled m;
     resultShown := resultShown m;
     processedVideoSrc := processedVideoSrc m |}.

(** [this.fallAlerts.innerHTML = ''] *)
Definition clearAlerts (m : Monitor) : Monitor :=
  {| token := token m; selectedFile := selectedFile m;
     fallAlerts := [];
     spinnerHidden := spinnerHidden m; processText := processText m;
     processDisabled := processDisabled m;
     resultShown := resultShown m;
     processedVideoSrc := processedVideoSrc m |}.

Definition showProcessedVideo (videoUrl : string) (m : Monitor) : Monitor :=
  {| token := token m; selectedFile := selectedFile m;
     fallAlerts := fallAlerts m;
     spinnerHidden := spinnerHidden m; processText := processText m;
     processDisabled := processDisabled m;
     resultShown := true;
     processedVideoSrc := videoUrl |}.

Definition MSG_NO_FILE : string := "Please select a video file first".
Definition MSG_FAILED : string := "Failed to process video".
Definition MSG_ERROR : string := "An error occurred while processing the video".

(** [processVideo]: the object afterwards and the requests made. *)
Definition processVideo (r : processResponse) (m : Monitor)
  : Monitor * list request :=
  match selectedFile m with
  | None => (showAlert MSG_NO_FILE m, [])
  | Some file =>
      let m1 := clearAlerts (showLoading true m) in
      let m2 :=
        match r with
        | ProcessJson status processed_video message =>
            if decide (status = "success"%string)
            then showProcessedVideo processed_video m1
            else showAlert (JS.orElse (JS.orElse message MSG_FAILED) MSG_ERROR) m1
        | ProcessRejected reason => showAlert (JS.orElse reason MSG_ERROR) m1
        end in
      (showLoading false m2, [PostVideo (token m) file])
  end.

(** The request succeeded in the eyes of the handler. *)
Definition succeeded (r : processResponse) : bool :=
  match r with
  | ProcessJson status _ _ => bool_decide (status = "success"%string)
  | ProcessRejected _ => false
  end.

End VideoMonitoring.

(** ** Face registration: [initialize] and [setupWebcam] *)

Module FaceSetup.
Import FaceRegistration.

(** The character U+0022. *)
Definition dq : string := String "034"%char EmptyString.

Definition MSG_LOADING : string := "Loading face detection models...".
Definition MSG_READY_TO_CAPTURE : string :=
  "✅ Ready to capture face - Click " +:+ dq +:+ "Capture Face" +:+ dq
  +:+ " when you are ready".
Definition MSG_UNAVAILABLE : string :=
  "⚠️ Face capture unavailable - You can still register without face capture".
Definition MSG_WEBCAM_DENIED : string :=
  "❌ Webcam access denied - Face capture disabled".
Definition LABEL_UNAVAILABLE : string := "Face Capture Unavailable".
Definition LABEL_NO_WEBCAM : string := "Webcam Not Available".

(** The object as the constructor leaves it, on a page whose elements are
    as in [markup]. *)
Definition constructed (markup : FaceUI) : FaceUI :=
  {| modelsLoaded := false;
     isFaceCaptured := false;
     faceDescriptor := None;
     captureBtn_disabled := captureBtn_disabled markup;
     captureBtn_text := captureBtn_text markup;
     captureBtn_display := captureBtn_display markup;
     retakeBtn_display := retakeBtn_display markup;
     video_display := video_display markup;
     canvas_display := canvas_display markup;
     status_text := status_text markup;
     status_type := status_type markup |}.

(** [captureBtn.disabled = true; captureBtn.textContent = label] *)
Definition disableCapture (label : string) (ui : FaceUI) : FaceUI :=
  {| modelsLoaded := modelsLoaded ui;
     isFaceCaptured := isFaceCaptured ui;
     faceDescriptor := faceDescriptor ui;
     captureBtn_disabled := true;
     captureBtn_text := label;
     captureBtn_display := captureBtn_display ui;
     retakeBtn_display := retakeBtn_display ui;
     video_display := video_display ui;
     canvas_display := canvas_display ui;
     status_text := status_text ui;
     status_type := status_type ui |}.

Definition setModelsLoaded (ui : FaceUI) : FaceUI :=
  {| modelsLoaded := true;
     isFaceCaptured := isFaceCaptured ui;
     faceDescriptor := faceDescriptor ui;
     captureBtn_disabled := captureBtn_disabled ui;
     captureBtn_text := captureBtn_text ui;
     captureBtn_display := captureBtn_display ui;
     retakeBtn_display := retakeBtn_display ui;
     video_display := video_display ui;
     canvas_display := canvas_display ui;
     status_text := status_text ui;
     status_type := status_type ui |}.

(** [setupWebcam]: a denied camera is caught inside; nothing is thrown to
    the caller. *)
Definition setupWebcam (granted : bool) (ui : FaceUI) : FaceUI :=
  if granted then ui
  else disableCapture LABEL_NO_WEBCAM (updateStatus MSG_WEBCAM_DENIED error ui).

(** [initialize]: the object afterwards, and whether the click listeners
    were attached. [modelsOk] says whether the three models loaded. *)
Definition initialize (modelsOk webcamGranted : bool) (ui : FaceUI)
  : FaceUI * bool :=
  let ui1 := updateStatus MSG_LOADING info ui in
  if modelsOk then
    let ui2 := setupWebcam webcamGranted (setModelsLoaded ui1) in
    (updateStatus MSG_READY_TO_CAPTURE success ui2, true)
  else
    (disableCapture LABEL_UNAVAILABLE (updateStatus MSG_UNAVAILABLE warning ui1),
     false).

End FaceSetup.

(** ** Registration form: adding and removing recipient blocks *)

Module RecipientBlocks.
Import RegistrationForm.

(** The clone of the template block with every input and select set to
    the empty string; a file input loses its selection. *)
Definition cleared (template : RecipientDiv) : RecipientDiv :=
  {| recipient_name := "";
     recipient_email := "";
     recipient_phone := "";
     recipient_age := "";
     recipient_gender := "";
     recipient_condition := "";
     recipient_report := (fun _ => []) <$> recipient_report template |}.

(** The click handler of [addRecipient]: the first block of the page is
    the template; with no block left [cloneNode] is called on [null] and
    the handler throws before changing anything. *)
Definition addRecipient (divs : list RecipientDiv) : list RecipientDiv :=
  match divs with
  | template :: _ => divs ++ [cleared template]
  | [] => divs
  end.

(** A click on the remove button of the block at index [i]. *)
Definition removeRecipient (i : nat) (divs : list RecipientDiv)
  : list RecipientDiv :=
  delete i divs.


(** A character is a decimal digit. *)
Definition isDigit (c : ascii) : bool :=
  let n := nat_of_ascii c in (48 <=? n)%nat && (n <=? 57)%nat.

Fixpoint allDigits (s : string) : bool :=
  match s with
  | EmptyString => true
  | String c rest => isDigit c && allDigits rest
  end.

Fixpoint allZeros (s : string) : bool :=
  match s with
  | EmptyString => true
  | String c rest => Ascii.eqb c "0" && allZeros rest
  end.

End RecipientBlocks.

(** ** Weather widget *)

Module WeatherWidget.

(** The text of the four elements that the widget updates. *)
Record Display := mkDisplay {
  location : string;
  tempValue : string;
  humidityValue : string;
  aqiValue : string
}.

(** The body of the weather endpoint; each value as the text that string
    concatenation makes of it, an absent location as the empty string. *)
Record Weather := mkWeather {
  w_location : string;
  w_temperature : string;
  w_humidity : string;
  w_aqi : string
}.

(** What [fetchWeatherData] returns: [null] after a rejected fetch, a
    non-2xx answer or an unreadable body, else the data. *)
Definition fetched := option Weather.

(** The markup that [createWidget] writes. *)
Definition placeholders : Display :=
  {| location := "Loading..."; tempValue := "--°C";
     humidityValue := "--%"; aqiValue := "--" |}.

Definition render (data : Weather) : Display :=
  {| location := JS.orElse (w_location data) "Unknown";
     tempValue := w_temperature data +:+ "°C";
     humidityValue := w_humidity data +:+ "%";
     aqiValue := w_aqi data +:+ "" |}.

(** [updateWeatherDisplay], given what the fetch returned. *)
Definition updateWeatherDisplay (data : fetched) (d : Display) : Display :=
  match data with
  | None => d
  | Some w => render w
  end.

(** The display after [init] and the later interval updates, given what
    each fetch returned, oldest first. *)
Definition displayAfter (fetches : list fetched) : Display :=
  foldl (fun d data => updateWeatherDisplay data d) placeholders fetches.

(** The data of the last fetch that returned any. *)
Definition lastData (fetches : list fetched) : option Weather :=
  last (omap id fetches).

End WeatherWidget.

(* ===================================================================== *)
(** * Part II: properties *)
(* ===================================================================== *)

Section EventListFacts.
Import EventList.

Lemma insertAtTop_cons e nodes : insertAtTop e nodes = Element e :: nodes.
Proof. destruct nodes; reflexivity. Qed.

Lemma children_app l1 l2 : children (l1 ++ l2) = children l1 ++ children l2.
Proof. apply omap_app. Qed.

(** Removing the last node leaves the first ten elements alone when there
    are more than ten. *)
Lemma children_removeLastChild nodes :
  10 < length (children nodes) ->
  take 10 (children (removeLastChild nodes)) = take 10 (children nodes).
Proof.
  unfold removeLastChild.
  destruct nodes as [|x l _] using rev_ind; [simpl; lia|].
  rewrite length_app. simpl.
  replace (length l + 1 - 1) with (length l) by lia.
  rewrite take_app_length, children_app, length_app.
  destruct x as [|e]; simpl.
  - by rewrite app_nil_r.
  - intros H. rewrite take_app_le by lia. reflexivity.
Qed.

Lemma keepLast10_children nodes :
  children (keepLast10 nodes) = take 10 (children nodes).
Proof.
  funelim (keepLast10 nodes).
  - match goal with IH : children _ = take _ _ |- _ => rewrite IH end.
    by apply children_removeLastChild.
  - symmetry. apply take_ge. lia.
Qed.

Lemma keepLast10_prefix nodes : keepLast10 nodes `prefix_of` nodes.
Proof.
  funelim (keepLast10 nodes); [|done].
  match goal with IH : _ `prefix_of` _ |- _ =>
    etrans; [exact IH|] end.
  unfold removeLastChild. apply prefix_take.
Qed.

Lemma addDetectedEvent_children now label c nodes :
  children (addDetectedEvent now label c nodes) =
  mkEvent now label c :: take 9 (children nodes).
Proof.
  unfold addDetectedEvent. rewrite insertAtTop_cons, keepLast10_children.
  reflexivity.
Qed.

Lemma addDetectedEvent_firstChild now label c nodes :
  addDetectedEvent now label c nodes !! 0 = Some (Element (mkEvent now label c)).
Proof.
  pose proof (addDetectedEvent_children now label c nodes) as Hc.
  unfold addDetectedEvent in *. rewrite insertAtTop_cons in *.
  destruct (keepLast10_prefix (Element (mkEvent now label c) :: nodes))
    as [rest Hrest].
  destruct (keepLast10 (Element (mkEvent now label c) :: nodes)) as [|n kept];
    [discriminate|].
  simpl in Hrest. by injection Hrest as <- _.
Qed.

Lemma addAll_length calls nodes :
  length (children nodes) <= 10 -> length (children (addAll calls nodes)) <= 10.
Proof.
  revert nodes.
  induction calls as [|c calls IH]; intros nodes Hl; simpl; [exact Hl|].
  apply IH. rewrite addDetectedEvent_children. simpl. rewrite length_take. lia.
Qed.

(** C3. Whatever nodes the list element starts with, after any sequence
    of [addDetectedEvent] calls ending with the event [(now, label, c)]
    the list has at most 10 element children, that last event is its
    first node and its child 0, and the children behind it are the
    previous ones in their order, the oldest dropped. From the empty list
    the bound holds after every sequence, the empty one included. *)
Theorem detected_events_bounded_newest_first :
  forall (nodes0 : list node) (calls : list DetectionEvent) now label c,
    let before := addAll calls nodes0 in
    let after := addDetectedEvent now label c before in
    length (children after) <= 10 /\
    after !! 0 = Some (Element (mkEvent now label c)) /\
    children after !! 0 = Some (mkEvent now label c) /\
    drop 1 (children after) = take 9 (children before) /\
    length (children (addAll calls [])) <= 10.
Proof.
  intros nodes0 calls now label c before after. subst after.
  rewrite addDetectedEvent_children, addDetectedEvent_firstChild. simpl.
  rewrite length_take. repeat split; try lia.
  apply addAll_length. simpl. lia.
Qed.

(** Eleven events into a list that starts with a text node: the text node
    and the oldest event are removed. *)
Example eleven_events_after_white_space :
  let ev n := mkEvent (Z.of_nat n) "cough" 0.8%Q in
  addAll (ev <$> seq 1 11) [TextNode] = Element <$> (ev <$> reverse (seq 2 10)).
Proof. reflexivity. Qed.

End EventListFacts.

(** ** The alerting monitor: thresholds and debounce *)

Section AudioMonitorFacts.
Import EventList AudioMonitor.

Lemma outsideDebounce_countDetection k k' s t c w :
  outsideDebounce k c (countDetection k' s t w) = outsideDebounce k c w.
Proof. reflexivity. Qed.

Lemma handleDetection_effects k score dwell w :
  effects (handleDetection k score dwell w) =
  (if alerts k score w
   then [Recording k score; Alerted k (clock w) score] else [])
  ++ Handled k (clock w) score :: effects w.
Proof.
  unfold handleDetection, alerts. rewrite outsideDebounce_countDetection.
  destruct (Qle_bool ALERT_THRESHOLD score); [|reflexivity].
  destruct (outsideDebounce k (clock w) w); reflexivity.
Qed.

Lemma handleDetection_events k score dwell w :
  detectedEventList (handleDetection k score dwell w) =
  if alerts k score w
  then addDetectedEvent (clock w + Z.of_N dwell) (kind_name k) score
         (detectedEventList w)
  else detectedEventList w.
Proof.
  unfold handleDetection, alerts. rewrite outsideDebounce_countDetection.
  destruct (Qle_bool ALERT_THRESHOLD score); [|reflexivity].
  destruct (outsideDebounce k (clock w) w); reflexivity.
Qed.

Lemma since_app new w w' :
  effects w' = new ++ effects w -> since w w' = new.
Proof.
  intros E. unfold since. rewrite E, length_app.
  replace (length new + length (effects w) - length (effects w))
    with (length new) by lia.
  apply take_app_length.
Qed.

Lemma alert_implies_detection score :
  (ALERT_THRESHOLD <= score)%Q -> (DETECTION_THRESHOLD <= score)%Q.
Proof.
  intros H. apply Qle_trans with ALERT_THRESHOLD; [|exact H].
  unfold DETECTION_THRESHOLD, ALERT_THRESHOLD, Qle. simpl. lia.
Qed.

Lemma consistent_initial t0 markup : consistent (initial t0 markup).
Proof.
  split; simpl; intros; try discriminate;
    try match goal with H : _ ∈ alertTimes _ _ |- _ =>
      unfold alertTimes in H; simpl in H; by apply elem_of_nil in H end.
Qed.

Lemma consistent_elapse d w : consistent w -> consistent (elapse d w).
Proof.
  intros [H1 H2 H4 H5 H6 H7]. split; simpl; eauto.
  - intros k t Ht. specialize (H1 k t Ht). lia.
  - intros k t Ha Ht. specialize (H4 k t Ha Ht). lia.
Qed.

Lemma consistent_timerFires h w : consistent w -> consistent (timerFires h w).
Proof.
  intros C. unfold timerFires.
  destruct (timers w !! h) as [[dl k]|] eqn:E; [|exact C].
  destruct (Z.leb_spec dl (clock w)) as [Hdue|]; [|exact C].
  destruct C as [H1 H2 H4 H5 H6 H7].
  split; simpl; unfold set_key.
  - exact H1.
  - intros k'. destruct (decide (k' = k)); [discriminate|]. apply H2.
  - intros k' t. destruct (decide (k' = k)) as [->|].
    + intros _ Ht. specialize (H7 h dl k t I E Ht). lia.
    + apply H4.
  - intros h' dl' k' Hl. apply lookup_delete_Some in Hl as [_ Hl]. eauto.
  - intros h' dl' k' Hl. apply lookup_delete_Some in Hl as [_ Hl]. eauto.
  - intros h' dl' k' t _ Hl. apply lookup_delete_Some in Hl as [_ Hl]. eauto.
Qed.

Lemma consistent_countDetection late k s t w :
  consistent_on late w -> consistent_on late (countDetection k s t w).
Proof. intros [H1 H2 H4 H5 H6 H7]. split; simpl; eauto. Qed.

Lemma alertTimes_alertBlock k k' s t dwell w :
  alertTimes k (alertBlock k' s t dwell w) =
  if decide (k' = k) then t :: alertTimes k w else alertTimes k w.
Proof. unfold alertTimes. simpl. destruct (decide (k' = k)); reflexivity. Qed.

(** The alert block, entered at the current clock time, keeps every
    clause but the one on the pending timer of its own kind. *)
Lemma consistent_alertBlock k s dwell w :
  consistent w ->
  consistent_on (fun k' => k' <> k) (alertBlock k s (clock w) dwell w).
Proof.
  intros [H1 H2 H4 H5 H6 H7].
  split; try (simpl; eauto; fail).
  - intros k' t. rewrite alertTimes_alertBlock. simpl.
    destruct (decide (k = k')) as [<-|].
    + intros [->|Ht]%elem_of_cons; [lia|]. apply H1 in Ht. lia.
    + intros Ht. apply H1 in Ht. lia.
  - intros k'. rewrite alertTimes_alertBlock. simpl. unfold set_key.
    destruct (decide (k' = k)) as [->|Hne].
    + intros _. exists (clock w). split; [reflexivity|].
      rewrite decide_True by reflexivity. split; [apply elem_of_cons; by left|].
      intros t' [->|Ht]%elem_of_cons; [lia|]. by apply H1 in Ht.
    + rewrite decide_False by congruence. apply H2.
  - intros k' t. rewrite alertTimes_alertBlock. simpl. unfold set_key.
    destruct (decide (k' = k)) as [->|Hne]; [discriminate|].
    rewrite decide_False by congruence.
    intros Ha Ht. specialize (H4 k' t Ha Ht). lia.
  - intros h dl k' t Hne Hl. rewrite alertTimes_alertBlock.
    rewrite decide_False by congruence. simpl in Hl. eauto.
Qed.

Lemma consistent_on_weaken (late late' : kind -> Prop) w :
  (forall k, late' k -> late k) -> consistent_on late w -> consistent_on late' w.
Proof. intros Hl [H1 H2 H4 H5 H6 H7]. split; eauto. Qed.

(** Restarting the cooldown of [k] drops its pending timer and sets one
    that is late enough, which restores the suspended clause. *)
Lemma consistent_restartCooldown k w :
  consistent_on (fun k' => k' <> k) w -> consistent (restartCooldown k w).
Proof.
  intros [H1 H2 H4 H5 H6 H7].
  assert (Hcl : forall h dl k',
    match detectionTimeouts w k with
    | Some h0 => delete h0 (timers w) | None => timers w end !! h = Some (dl, k')
    -> timers w !! h = Some (dl, k') /\ k' <> k).
  { intros h dl k' Hl. destruct (detectionTimeouts w k) as [h0|] eqn:E.
    - apply lookup_delete_Some in Hl as [Hne Hl]. split; [exact Hl|].
      intros ->. apply H5 in Hl. congruence.
    - split; [exact Hl|]. intros ->. apply H5 in Hl. congruence. }
  split; simpl; unfold set_key; eauto.
  - intros h dl k' Hl. apply lookup_insert_Some in Hl as [[<- E]|[Hne Hl]].
    + inversion E; subst. by rewrite decide_True.
    + apply Hcl in Hl as [Hl Hk]. rewrite decide_False by exact Hk. eauto.
  - intros h dl k' Hl. apply lookup_insert_Some in Hl as [[<- E]|[Hne Hl]].
    + lia.
    + apply Hcl in Hl as [Hl Hk]. apply H6 in Hl. lia.
  - intros h dl k' t _ Hl Ht.
    apply lookup_insert_Some in Hl as [[<- E]|[Hne Hl]].
    + inversion E; subst. apply H1 in Ht. lia.
    + apply Hcl in Hl as [Hl Hk]. eauto.
Qed.

Lemma consistent_handleDetection k score dwell w :
  consistent w -> consistent (handleDetection k score dwell w).
Proof.
  intros C. unfold handleDetection. apply consistent_restartCooldown.
  pose proof (consistent_countDetection _ k score (clock w) w C) as C1.
  assert (Cw : consistent_on (fun k' => k' <> k)
                 (countDetection k score (clock w) w))
    by (eapply consistent_on_weaken; [|exact C1]; done).
  destruct (Qle_bool ALERT_THRESHOLD score); [|exact Cw].
  destruct (outsideDebounce k (clock w) _); [|exact Cw].
  apply (consistent_alertBlock k score dwell _ C1).
Qed.

Lemma consistent_onScore k s dwell w :
  consistent w -> consistent (onScore k s dwell w).
Proof.
  intros C. unfold onScore. destruct (JS.ge_number s _); [|exact C].
  destruct s; [|exact C]. by apply consistent_handleDetection.
Qed.

Lemma reachable_consistent w : reachable w -> consistent w.
Proof.
  induction 1 as [t0 markup|t w _ IH]; [apply consistent_initial|].
  destruct t; simpl.
  - by apply consistent_elapse.
  - by apply consistent_timerFires.
  - by apply consistent_onScore.
  - unfold listenCallback. by do 2 apply consistent_onScore.
Qed.

(** A callback is the statement for cough followed by the one for snore,
    so what holds of [onScore] in every reachable world holds of both
    halves of a callback. *)
Lemma listenCallback_by_label labels scores d1 d2 w :
  listenCallback labels scores d1 d2 w =
  run (Score snore (scoresByLabel labels scores !! "snore"%string) d2)
    (run (Score cough (scoresByLabel labels scores !! "cough"%string) d1) w).
Proof. reflexivity. Qed.

(** Under the invariant the debounce test reads the history of alerts. *)
Lemma outsideDebounce_history k w :
  consistent w ->
  outsideDebounce k (clock w) w = true <->
  forall t, t ∈ alertTimes k w -> (1000 < clock w - t)%Z.
Proof.
  intros [H1 H2 H4 _ _ _]. unfold outsideDebounce.
  destruct (detectionActive w k) eqn:Ea; simpl.
  - destruct (H2 k Ea) as (t0 & Es & Hin & Hmax). rewrite Es. simpl.
    rewrite Z.ltb_lt. split.
    + intros Hlt t Ht. apply Hmax in Ht. lia.
    + intros Hall. by apply Hall.
  - split; [|done]. intros _ t Ht. specialize (H4 k t Ea Ht). lia.
Qed.

Lemma onScore_effects k s dwell w :
  effects (onScore k s dwell w) =
  match s with
  | Some score =>
      if Qle_bool DETECTION_THRESHOLD score
      then (if alerts k score w
            then [Recording k score; Alerted k (clock w) score] else [])
           ++ [Handled k (clock w) score]
      else []
  | None => []
  end ++ effects w.
Proof.
  unfold onScore. destruct s as [score|]; simpl; [|reflexivity].
  destruct (Qle_bool DETECTION_THRESHOLD score); [|reflexivity].
  rewrite handleDetection_effects, <- app_assoc. reflexivity.
Qed.

(** C1. In every world the monitor can reach, for each tracked label and
    each score [s] the callback reads for it ([None]: the classifier has
    no such label): [handleDetection] runs for the label iff [s >= 0.78],
    and the alert is shown iff [s >= 0.90] and every earlier alert for
    that label is more than 1000 ms old. *)
Theorem detection_iff_078_alert_iff_090_outside_debounce :
  forall w, reachable w ->
  forall (k : kind) (s : option Q) (dwell : N),
    let w' := onScore k s dwell w in
    (detectionFired k w w' = true <->
       exists score, s = Some score /\ (0.78 <= score)%Q) /\
    (alertFired k w w' = true <->
       exists score, s = Some score /\ (0.90 <= score)%Q /\
         forall t, t ∈ alertTimes k w -> (1000 < clock w - t)%Z).
Proof.
  intros w Hw k s dwell w'.
  pose proof (reachable_consistent w Hw) as C.
  pose proof (onScore_effects k s dwell w) as E.
  unfold detectionFired, alertFired.
  rewrite (since_app _ w w' E). clear E.
  destruct s as [score|]; simpl.
  2:{ split; (split; [discriminate|]); intros (? & ? & _); discriminate. }
  destruct (Qle_bool DETECTION_THRESHOLD score) eqn:Ed.
  - apply Qle_bool_iff in Ed. unfold alerts.
    destruct (Qle_bool ALERT_THRESHOLD score) eqn:Ea; simpl.
    + apply Qle_bool_iff in Ea.
      destruct (outsideDebounce k (clock w) w) eqn:Eo; simpl;
        rewrite !bool_decide_eq_true_2 by reflexivity; simpl.
      * split; (split; [intros _|done]); exists score; split; try done.
        split; [exact Ea|]. by apply outsideDebounce_history.
      * split; [split; [intros _|done]; by exists score|].
        split; [discriminate|]. intros (sc & [= <-] & _ & Hall).
        apply outsideDebounce_history in Hall; [congruence|exact C].
    + rewrite !bool_decide_eq_true_2 by reflexivity; simpl.
      split; [split; [intros _|done]; by exists score|].
      split; [discriminate|]. intros (sc & [= <-] & Hge & _).
      apply Qle_bool_iff in Hge. unfold ALERT_THRESHOLD in Ea. congruence.
  - simpl. split; (split; [discriminate|]).
    + intros (sc & [= <-] & Hge). apply Qle_bool_iff in Hge.
      unfold DETECTION_THRESHOLD in Ed. congruence.
    + intros (sc & [= <-] & Hge & _). apply alert_implies_detection in Hge.
      apply Qle_bool_iff in Hge. congruence.
Qed.

(** The maximum that [Math.max] returns is one of the scores and bounds
    them all. *)
Lemma maxScore_is_max scores m :
  SimpleMonitor.maxScore scores = Some m ->
  m ∈ scores /\ forall x, x ∈ scores -> (x <= m)%Q.
Proof.
  destruct scores as [|s rest]; [discriminate|]. simpl. intros [= <-].
  assert (G : forall l a,
    let r := foldl (fun m x => if Qle_bool m x then x else m) a l in
    (r = a \/ r ∈ l) /\ (a <= r)%Q /\ forall x, x ∈ l -> (x <= r)%Q).
  { induction l as [|y l IH]; intros a; simpl.
    - split; [by left|]. split; [apply Qle_refl|]. by intros x ?%elem_of_nil.
    - destruct (Qle_bool a y) eqn:E.
      + apply Qle_bool_iff in E. destruct (IH y) as ([->|Hin] & Hle & Hall).
        * split; [right; apply elem_of_cons; by left|]. split; [done|].
          intros x [->|Hx]%elem_of_cons; [apply Qle_refl|by apply Hall].
        * split; [right; apply elem_of_cons; by right|].
          split; [by eapply Qle_trans|].
          intros x [->|Hx]%elem_of_cons; [done|by apply Hall].
      + assert (Hya : (y <= a)%Q).
        { destruct (Qlt_le_dec a y) as [Hlt|Hge]; [|done].
          apply Qlt_le_weak, Qle_bool_iff in Hlt. congruence. }
        destruct (IH a) as ([->|Hin] & Hle & Hall).
        * split; [by left|]. split; [done|].
          intros x [->|Hx]%elem_of_cons; [done|by apply Hall].
        * split; [right; apply elem_of_cons; by right|]. split; [done|].
          intros x [->|Hx]%elem_of_cons; [by eapply Qle_trans|by apply Hall]. }
  destruct (G rest s) as ([->|Hin] & Hle & Hall).
  - split; [apply elem_of_cons; by left|].
    intros x [->|Hx]%elem_of_cons; [apply Qle_refl|by apply Hall].
  - split; [apply elem_of_cons; by right|].
    intros x [->|Hx]%elem_of_cons; [done|by apply Hall].
Qed.

(** C2 (as amended). In the alerting monitor an event is added to the list
    exactly when the alert is shown: the score of the label is at least
    0.90 and every earlier alert for that label is more than 1000 ms old;
    otherwise the list is left as it is, also for a score between 0.78
    and 0.90. In the simple monitor an event is added, for the label with
    the highest score, exactly when that score is at least 0.78. *)
Theorem event_added_iff_alert_shown_or_top_score_078 :
  forall w, reachable w ->
  forall (k : kind) (s : option Q) (dwell : N)
         now labels scores (l : list node),
    let shown := exists score, s = Some score /\ (0.90 <= score)%Q /\
                   forall t, t ∈ alertTimes k w -> (1000 < clock w - t)%Z in
    let w' := onScore k s dwell w in
    let l' := SimpleMonitor.listenCallback now labels scores l in
    (forall score, s = Some score -> shown ->
       detectedEventList w' =
       addDetectedEvent (clock w + Z.of_N dwell) (kind_name k) score
         (detectedEventList w)) /\
    (~ shown -> detectedEventList w' = detectedEventList w) /\
    (forall m, SimpleMonitor.maxScore scores = Some m -> (0.78 <= m)%Q ->
       (forall x, x ∈ scores -> (x <= m)%Q) /\
       l' = addDetectedEvent now
              (SimpleMonitor.labelAt labels (SimpleMonitor.indexOf scores m)) m l) /\
    ((forall m, SimpleMonitor.maxScore scores = Some m -> ~ (0.78 <= m)%Q) ->
       l' = l).
Proof.
  intros w Hw k s dwell now labels scores l shown w' l'.
  pose proof (reachable_consistent w Hw) as C.
  assert (Hev : forall score, s = Some score ->
    detectedEventList w' =
    if Qle_bool DETECTION_THRESHOLD score && alerts k score w
    then addDetectedEvent (clock w + Z.of_N dwell) (kind_name k) score
           (detectedEventList w)
    else detectedEventList w).
  { intros score ->. subst w'. unfold onScore. simpl.
    destruct (Qle_bool DETECTION_THRESHOLD score); [|done].
    apply handleDetection_events. }
  assert (Hshown : forall score, s = Some score ->
    Qle_bool DETECTION_THRESHOLD score && alerts k score w = true <-> shown).
  { intros score ->. unfold shown, alerts.
    rewrite !andb_true_iff, !Qle_bool_iff, (outsideDebounce_history k w C).
    split.
    - intros (_ & Ha & Hall). by exists score.
    - intros (sc & [= <-] & Ha & Hall).
      split; [by apply alert_implies_detection|done]. }
  repeat split.
  - intros score Hs Hsh. rewrite (Hev score Hs).
    apply (Hshown score Hs) in Hsh. by rewrite Hsh.
  - intros Hn. destruct s as [score|].
    + rewrite (Hev score eq_refl).
      destruct (Qle_bool _ _ && _) eqn:E; [|done].
      destruct Hn. by apply (Hshown score eq_refl).
    + reflexivity.
  - by apply maxScore_is_max.
  - match goal with Hm : SimpleMonitor.maxScore _ = Some _ |- _ =>
      subst l'; unfold SimpleMonitor.listenCallback; rewrite Hm end.
    match goal with Hge : (_ <= _)%Q |- _ =>
      apply Qle_bool_iff in Hge; unfold SimpleMonitor.DETECTION_THRESHOLD;
      by rewrite Hge end.
  - intros Hn. subst l'. unfold SimpleMonitor.listenCallback.
    destruct (SimpleMonitor.maxScore scores) as [m|]; [|done].
    destruct (Qle_bool SimpleMonitor.DETECTION_THRESHOLD m) eqn:E; [|done].
    apply Qle_bool_iff in E. by destruct (Hn m eq_refl).
Qed.

Lemma event_added_iff_alert_shown_or_top_score_078_witness :
  let w := initial 0 [] in
  detectedEventList (onScore cough (Some 0.95%Q) 0 w) =
    addDetectedEvent 0 "cough" 0.95%Q [] /\
  SimpleMonitor.listenCallback 0 ["noise"; "cough"] [0.1%Q; 0.8%Q] [] =
    addDetectedEvent 0 "cough" 0.8%Q [].
Proof.
  intros w.
  destruct (event_added_iff_alert_shown_or_top_score_078 w (reach_initial 0 [])
              cough (Some 0.95%Q) 0%N 0%Z ["noise"; "cough"]%string
              [0.1%Q; 0.8%Q] []) as (H1 & _ & H3 & _).
  split.
  - apply (H1 0.95%Q eq_refl). exists 0.95%Q.
    split; [reflexivity|]. split; [by vm_compute|].
    intros t Ht. by apply elem_of_nil in Ht.
  - apply (H3 0.8%Q); [reflexivity | by vm_compute].
Defined.

(** C2 (as stated) fails in the alerting monitor: a cough score of 0.80
    is over the detection threshold, [handleDetection] runs, and no event
    is added. *)
Lemma no_event_for_score_between_thresholds :
  let w := initial 0 [] in
  let w' := listenCallback ["Background Noise"; "Cough"; "Snore"]
              [0.15%Q; 0.80%Q; 0.05%Q] 0 0 w in
  detectionFired cough w w' = true /\
  totalDetections w' = 1 /\
  detectedEventList w' = [].
Proof. by vm_compute. Qed.

Lemma detection_iff_078_alert_iff_090_outside_debounce_witness :
  let w := elapse 1001 (onScore cough (Some 0.95%Q) 0 (initial 5000 [])) in
  let w' := onScore cough (Some 0.95%Q) 0 w in
  detectionFired cough w w' = true /\ alertFired cough w w' = true.
Proof.
  intros w w'.
  assert (Hw : reachable w).
  { apply (reach_run (Elapse 1001)),
          (reach_run (Score cough (Some 0.95%Q) 0)), reach_initial. }
  destruct (detection_iff_078_alert_iff_090_outside_debounce w Hw
              cough (Some 0.95%Q) 0%N) as [Hd Ha].
  split.
  - apply Hd. exists 0.95%Q. split; [reflexivity | by vm_compute].
  - apply Ha. exists 0.95%Q. split; [reflexivity|]. split; [by vm_compute|].
    intros t Ht. apply list_elem_of_singleton in Ht. subst t. reflexivity.
Defined.

(** The scenario of the specification: cough 0.95, snore 0.1 and
    background noise 0.05 give one alert and one event, for cough. *)
Example cough_095_one_alert_one_event :
  let w := listenCallback ["Background Noise"; "Cough"; "Snore"]
             [0.05%Q; 0.95%Q; 0.1%Q] 0 0 (initial 7000 []) in
  effects w = [Recording cough 0.95%Q; Alerted cough 7000 0.95%Q;
               Handled cough 7000 0.95%Q] /\
  children (detectedEventList w) = [mkEvent 7000 "cough" 0.95%Q] /\
  (coughDetections w, totalDetections w) = (1, 1).
Proof. by vm_compute. Qed.

(** The debounce at its boundary: an alert at 5000, then a score of 0.95
    exactly 1000 ms later is not alerted, and 1001 ms later it is. *)
Example debounce_boundary :
  let w := onScore cough (Some 0.95%Q) 0 (initial 5000 []) in
  alertFired cough (initial 5000 []) w = true /\
  alertFired cough (elapse 1000 w) (onScore cough (Some 0.95%Q) 0 (elapse 1000 w))
    = false /\
  alertFired cough (elapse 1001 w) (onScore cough (Some 0.95%Q) 0 (elapse 1001 w))
    = true.
Proof. by vm_compute. Qed.

End AudioMonitorFacts.

(** ** Media streams of the audio monitor and of the camera feed *)

Section MediaFacts.

Lemma stopVideoFeed_tidy p :
  VideoFeed.tidy p -> VideoFeed.tidy (VideoFeed.stopVideoFeed p).
Proof.
  unfold VideoFeed.tidy. intros [Hf Hv]. simpl.
  destruct (VideoFeed.videoStream p) as [s|].
  - destruct Hv as [Hl Hn]. rewrite Hl, Hn.
    split; [set_solver|]. split; [set_solver|lia].
  - done.
Qed.

Lemma reachable_tidy p : VideoFeed.reachable p -> VideoFeed.tidy p.
Proof.
  induction 1 as [|p Hp IH H0|granted p Hp IH|p Hp IH|p Hp IH]; simpl.
  - split; [set_solver|]. simpl. split; [done|lia].
  - unfold VideoFeed.toggleVideoFeed.
    destruct (VideoFeed.videoStream p) eqn:E; [by apply stopVideoFeed_tidy|].
    destruct IH as [Hf Hv]. rewrite E in Hv. split; simpl; [done|].
    split; [tauto|lia].
  - unfold VideoFeed.cameraSettles.
    destruct (VideoFeed.awaitingCamera p) as [|n] eqn:En; [exact IH|].
    destruct IH as [Hf Hv].
    destruct (VideoFeed.videoStream p) eqn:E; [lia|]. destruct Hv as [Hl Hn].
    destruct granted; split; simpl.
    + intros s [->%elem_of_singleton|Hs]%elem_of_union; [lia|].
      apply Hf in Hs. lia.
    + rewrite Hl. split; [set_solver|lia].
    + done.
    + split; [done|lia].
  - unfold VideoFeed.stopIfHeld.
    destruct (VideoFeed.videoStream p) eqn:E; [by apply stopVideoFeed_tidy|done].
  - unfold VideoFeed.stopIfHeld.
    destruct (VideoFeed.videoStream p) eqn:E; [by apply stopVideoFeed_tidy|done].
Qed.

(** Without that order the bound is lost: two clicks on the toggle before
    the first camera request settles give two live streams, of which
    only the second is held. *)
Example two_clicks_before_camera_settles :
  let p := VideoFeed.perform (VideoFeed.CameraSettles true)
             (VideoFeed.perform (VideoFeed.CameraSettles true)
                (VideoFeed.perform VideoFeed.ClickToggle
                   (VideoFeed.perform VideoFeed.ClickToggle
                      VideoFeed.pageLoaded))) in
  VideoFeed.videoStream p = Some 1 /\ size (VideoFeed.liveStreams p) = 2.
Proof. split; by vm_compute. Qed.

(** Stopping the camera feed leaves no live track and an idle element. *)
Lemma stopVideoFeed_releases p :
  VideoFeed.reachable p ->
  let p' := VideoFeed.stopVideoFeed p in
  VideoFeed.liveStreams p' = ∅ /\ VideoFeed.videoStream p' = None /\
  VideoFeed.srcObject p' = None /\ VideoFeed.paused p' = true.
Proof.
  intros [_ Hv]%reachable_tidy. simpl.
  destruct (VideoFeed.videoStream p); destruct Hv as [Hl _]; rewrite Hl;
    repeat split; set_solver.
Qed.

Lemma audio_ids_below_fresh st :
  AudioSession.reachable st ->
  forall s, s ∈ AudioSession.liveStreams st -> s < AudioSession.fresh st.
Proof.
  induction 1 as [|st _ IH|granted st _ IH|granted listenOk st _ IH
                 |granted st _ IH|r st _ IH]; simpl.
  - set_solver.
  - intros s Hs. apply IH in Hs. lia.
  - unfold AudioSession.setupSettles.
    destruct (AudioSession.setupPending st); [|exact IH].
    destruct granted; simpl; [|exact IH].
    intros s [->%elem_of_singleton|Hs]%elem_of_union; [lia|].
    apply IH in Hs. lia.
  - unfold AudioSession.toggleAudioMonitoring.
    destruct (AudioSession.isListening st); simpl; [exact IH|].
    destruct granted; simpl.
    + intros s [->%elem_of_singleton|Hs]%elem_of_union; [lia|].
      apply IH in Hs. lia.
    + intros s Hs. apply IH in Hs. lia.
  - destruct granted; simpl; [|exact IH].
    intros s [->%elem_of_singleton|Hs]%elem_of_union; [lia|].
    apply IH in Hs. lia.
  - unfold AudioSession.recordingTimer.
    destruct (decide _); simpl; [|exact IH].
    intros s [Hs _]%elem_of_difference. by apply IH.
Qed.

(** The stop branch never stops a track: the streams that were live stay
    live. It does close the held context and clears [isListening]. *)
Lemma stopListening_keeps_streams st :
  let st' := AudioSession.stopListening st in
  AudioSession.liveStreams st' = AudioSession.liveStreams st /\
  AudioSession.contextClosed st' /\
  AudioSession.isListening st' = false.
Proof.
  simpl. split; [reflexivity|]. split; [|reflexivity].
  intros c Hc. simpl in *. rewrite Hc. set_solver.
Qed.

(** C4 (as amended). The camera feed holds at most one live video stream
    in every page it reaches while each camera request settles before the
    next click on the toggle, and a live stream is the one held in
    [window.videoStream]. In the audio monitor a recording opens a stream
    of its own next to those already live, stops none of them, and its
    3-second timer stops that stream again. *)
Theorem one_camera_stream_and_recording_stream_apart :
  forall p st,
    VideoFeed.reachable p -> AudioSession.reachable st ->
    (size (VideoFeed.liveStreams p) <= 1 /\
     forall s, s ∈ VideoFeed.liveStreams p -> VideoFeed.videoStream p = Some s) /\
    (let r := AudioSession.fresh st in
     let st' := AudioSession.saveDetectionRecording true st in
     (r ∉ AudioSession.liveStreams st) /\
     AudioSession.liveStreams st' = {[r]} ∪ AudioSession.liveStreams st /\
     AudioSession.liveStreams (AudioSession.recordingTimer r st') =
       AudioSession.liveStreams st).
Proof.
  intros p st Hp Hst. split.
  - destruct (reachable_tidy p Hp) as [_ Hv].
    destruct (VideoFeed.videoStream p) as [s|]; destruct Hv as [Hl _];
      rewrite Hl.
    + rewrite size_singleton. split; [lia|].
      by intros s' ->%elem_of_singleton.
    + rewrite size_empty. split; [lia|]. set_solver.
  - pose proof (audio_ids_below_fresh st Hst) as Hf.
    assert (Hr : AudioSession.fresh st ∉ AudioSession.liveStreams st).
    { intros Hin. apply Hf in Hin. lia. }
    simpl. split; [exact Hr|]. split; [reflexivity|].
    unfold AudioSession.recordingTimer. simpl.
    rewrite decide_True by set_solver. simpl. set_solver.
Qed.

Lemma one_camera_stream_and_recording_stream_apart_witness :
  let p := VideoFeed.perform (VideoFeed.CameraSettles true)
             (VideoFeed.perform VideoFeed.ClickToggle VideoFeed.pageLoaded) in
  let st := AudioSession.toggleAudioMonitoring true true
              AudioSession.pageLoaded in
  size (VideoFeed.liveStreams p) <= 1 /\
  AudioSession.fresh st ∉ AudioSession.liveStreams st.
Proof.
  intros p st.
  assert (Hp : VideoFeed.reachable p).
  { apply VideoFeed.reach_settles, VideoFeed.reach_toggle;
      [apply VideoFeed.reach_loaded | reflexivity]. }
  assert (Hst : AudioSession.reachable st).
  { apply AudioSession.reach_toggle, AudioSession.reach_loaded. }
  destruct (one_camera_stream_and_recording_stream_apart p st Hp Hst)
    as [[H1 _] [H2 _]].
  split; [exact H1 | exact H2].
Defined.

(** C4 (as stated) fails in the audio monitor: with monitoring started,
    the recording of an alert opens a second audio stream while the
    monitoring stream is live. *)
Lemma two_audio_streams_while_recording :
  let st := AudioSession.saveDetectionRecording true
              (AudioSession.toggleAudioMonitoring true true
                 AudioSession.pageLoaded) in
  AudioSession.reachable st /\
  AudioSession.isListening st = true /\
  AudioSession.liveStreams st = {[2; 1]} /\
  size (AudioSession.liveStreams st) = 2.
Proof.
  split; [apply AudioSession.reach_record, AudioSession.reach_toggle,
            AudioSession.reach_loaded|].
  split; [reflexivity|]. split; [by vm_compute|by vm_compute].
Qed.

(** C5 at the failing input: start monitoring with the microphone
    granted, then stop. The context is closed and [isListening] cleared,
    and the stream acquired at start still has its live track. *)
Lemma audio_stop_leaves_track_live :
  let started := AudioSession.toggleAudioMonitoring true true
                   AudioSession.pageLoaded in
  let stopped := AudioSession.toggleAudioMonitoring true true started in
  AudioSession.isListening started = true /\
  AudioSession.isListening stopped = false /\
  AudioSession.openContexts stopped = ∅ /\
  AudioSession.liveStreams stopped = {[1]} /\
  size (AudioSession.liveStreams stopped) = 1.
Proof. repeat split; by vm_compute. Qed.

End MediaFacts.

(** ** Polling the status of an upload job *)

Section PollingFacts.
Import Polling.

Lemma count_app f l1 l2 : count f (l1 ++ l2) = count f l1 + count f l2.
Proof. unfold count. by rewrite List.filter_app, length_app. Qed.

Lemma count_updateProgress d :
  count isFetchStatus (updateProgress d) = 0 /\
  count isFetchResults (updateProgress d) = 0.
Proof. unfold updateProgress. by destruct (progress d). Qed.

Lemma count_round pid d :
  count isFetchStatus (round pid d) = 1 /\ count isFetchResults (round pid d) = 0.
Proof.
  unfold round. destruct (count_updateProgress d) as [H1 H2].
  change (FetchStatus pid :: updateProgress d ++ [SetTimeout 2000])
    with ([FetchStatus pid] ++ updateProgress d ++ [SetTimeout 2000]).
  rewrite !count_app, H1, H2. done.
Qed.

Lemma count_rounds pid ds :
  count isFetchStatus (ds ≫= round pid) = length ds /\
  count isFetchResults (ds ≫= round pid) = 0.
Proof.
  induction ds as [|d ds [IH1 IH2]]; [done|].
  rewrite bind_cons, !count_app, IH1, IH2.
  destruct (count_round pid d) as [-> ->]. done.
Qed.

Lemma count_finish pid d results :
  count isFetchStatus (finish pid d results) = 0 /\
  count isFetchResults (finish pid d results) =
    if decide (status d = "completed"%string) then 1 else 0.
Proof.
  unfold finish. destruct (decide _); [|done].
  unfold showProcessingResults.
  destruct results as [?|?|res]; try done.
  by destruct (falls_detected res).
Qed.

(** While the status is unsettled every answer is followed by a timer of
    2000 ms and the next request. *)
Lemma poll_unsettled pid before answers results :
  Forall (fun d => settled d = false) before ->
  pollProcessingStatus pid ((StatusOk <$> before) ++ answers) results =
  (before ≫= round pid) ++ pollProcessingStatus pid answers results.
Proof.
  induction 1 as [|d ds Hd _ IH]; [done|].
  rewrite fmap_cons, bind_cons. simpl. rewrite IH.
  unfold settled in Hd. apply orb_false_iff in Hd as [H1 H2].
  apply bool_decide_eq_false in H1, H2.
  rewrite !decide_False by done.
  unfold round. simpl. by rewrite <- !app_assoc.
Qed.

(** C8. Fed with any answers of the status endpoint that carry a status:
    as long as the status is neither "completed" nor "error" the poller
    sets a 2000 ms timer and asks again, so after [before] it has asked
    once per answer and holds the next request open. On the first answer
    [d] that is settled it asks no more: on "completed" it fetches the
    results once, on "error" it shows the error, and the later answers
    are never requested. *)
Theorem polls_every_2s_until_settled_then_results_once :
  forall pid (before : list StatusData) (d : StatusData) later results,
    Forall (fun x => settled x = false) before ->
    settled d = true ->
    let trace :=
      pollProcessingStatus pid (StatusOk <$> (before ++ d :: later)) results in
    pollProcessingStatus pid (StatusOk <$> before) results =
      (before ≫= round pid) ++ [FetchStatus pid] /\
    trace = (before ≫= round pid)
            ++ FetchStatus pid :: updateProgress d ++ finish pid d results /\
    count isFetchStatus trace = S (length before) /\
    count isFetchResults trace =
      (if decide (status d = "completed"%string) then 1 else 0).
Proof.
  intros pid before d later results Hb Hd trace.
  assert (Ht : trace = (before ≫= round pid)
            ++ FetchStatus pid :: updateProgress d ++ finish pid d results).
  { subst trace. rewrite fmap_app, (poll_unsettled _ _ _ _ Hb). f_equal.
    rewrite fmap_cons. simpl. f_equal. f_equal. unfold finish.
    destruct (decide (status d = "completed"%string)); [done|].
    unfold settled in Hd. rewrite bool_decide_eq_false_2 in Hd by done.
    simpl in Hd. apply bool_decide_eq_true in Hd. by rewrite decide_True. }
  split.
  { rewrite <- (app_nil_r (StatusOk <$> before)).
    by rewrite (poll_unsettled _ _ _ _ Hb). }
  split; [exact Ht|]. rewrite Ht.
  change (FetchStatus pid :: updateProgress d ++ finish pid d results)
    with ([FetchStatus pid] ++ updateProgress d ++ finish pid d results).
  rewrite !count_app.
  destruct (count_rounds pid before) as [-> ->].
  destruct (count_updateProgress d) as [-> ->].
  destruct (count_finish pid d results) as [-> ->].
  split; [simpl; lia|]. simpl. reflexivity.
Qed.

Lemma polls_every_2s_until_settled_then_results_once_witness :
  let processing := mkStatus "processing" (Some 40%Z) "" in
  let completed := mkStatus "completed" None "" in
  let results := ResultsOk (mkResults "out.mp4" []) in
  pollProcessingStatus "job" (StatusOk <$> ([processing] ++ completed :: []))
    results =
  [FetchStatus "job"; ShowProgress 40 "Processing..."; SetTimeout 2000;
   FetchStatus "job"; FetchResults "job"; RenderNoFalls].
Proof.
  intros processing completed results.
  destruct (polls_every_2s_until_settled_then_results_once
              "job" [processing] completed [] results) as (_ & Ht & _).
  - repeat constructor.
  - reflexivity.
  - rewrite Ht. reflexivity.
Defined.

End PollingFacts.

(** ** Face capture *)

Section FaceRegistrationFacts.
Import FaceRegistration.

Lemma race_timeout d : noResultWithin20s d -> race d = Rejected TIMEOUT_ERROR.
Proof.
  destruct d as [descriptor after|after|reason after|]; simpl; [| | |done];
    intros H; (destruct (N.ltb_spec after 20000) as [Hlt|_]; [lia|done]).
Qed.

(** A shown capture button means that no face is captured, and the
    listeners exist only once the models are loaded. *)
Lemma reachable_not_captured ui :
  reachable ui ->
  modelsLoaded ui = true /\
  (isFaceCaptured ui = true -> captureBtn_display ui = "none"%string).
Proof.
  induction 1 as [markup|d ui _ [IHm IHc] Hclick|ui _ [IHm _]].
  - done.
  - unfold captureFace. rewrite IHm. simpl.
    destruct Hclick as [Hshown _].
    assert (Hnot : isFaceCaptured ui = false).
    { destruct (isFaceCaptured ui); [|done]. by destruct Hshown; apply IHc. }
    destruct (race d) as [[descriptor|]|reason]; simpl; [done| |].
    + split; [done|]. congruence.
    + destruct (decide (reason = TIMEOUT_ERROR)); simpl; (split; [done|congruence]).
  - done.
Qed.

(** C9. For every capture attempt the page can make (a click on the shown,
    enabled button) in which the detection has produced nothing after 20
    seconds: the status is the took-too-long message, an error, which is
    not the no-face message, and the button ends enabled and labelled
    "Capture Face", not "Detecting...". *)
Theorem capture_timeout_reports_and_resets_button :
  forall ui d,
    reachable ui -> clickable ui -> noResultWithin20s d ->
    let ui' := captureFace d ui in
    status_text ui' = MSG_TOO_LONG /\
    status_type ui' = error /\
    MSG_TOO_LONG <> MSG_NO_FACE /\
    captureBtn_disabled ui' = false /\
    captureBtn_text ui' = LABEL_CAPTURE /\
    captureBtn_text ui' <> LABEL_DETECTING.
Proof.
  intros ui d Hr [Hshown _] Hd.
  destruct (reachable_not_captured ui Hr) as [Hm Hc].
  assert (Hnot : isFaceCaptured ui = false).
  { destruct (isFaceCaptured ui); [|done]. by destruct Hshown; apply Hc. }
  simpl. unfold captureFace. rewrite Hm, (race_timeout d Hd).
  rewrite decide_True by reflexivity. simpl. rewrite Hnot.
  repeat split; done.
Qed.

Lemma capture_timeout_reports_and_resets_button_witness :
  let ui := initialized
              (mkFaceUI false false None false LABEL_CAPTURE "inline-block"
                 "none" "block" "none" "Camera ready" info) in
  let ui' := captureFace Pending ui in
  status_text ui' = MSG_TOO_LONG /\ captureBtn_disabled ui' = false /\
  captureBtn_text ui' = LABEL_CAPTURE.
Proof.
  intros ui ui'.
  destruct (capture_timeout_reports_and_resets_button ui Pending)
    as (H1 & _ & _ & H2 & H3 & _).
  - apply reach_initialized.
  - split; [discriminate | reflexivity].
  - exact I.
  - split; [exact H1 | split; [exact H2 | exact H3]].
Defined.

End FaceRegistrationFacts.

(** ** Registration form *)

Section RegistrationFormFacts.
Import RegistrationForm.

Lemma isEmpty_false s : JS.isEmpty s = false <-> s <> ""%string.
Proof. unfold JS.isEmpty. apply bool_decide_eq_false. Qed.

Lemma isEmpty_true s : JS.isEmpty s = true <-> s = ""%string.
Proof. unfold JS.isEmpty. apply bool_decide_eq_true. Qed.

(** The phone test is a test of the length. *)
Lemma phoneOk_length s : phoneOk s = true <-> String.length s = 10.
Proof.
  unfold phoneOk. rewrite negb_true_iff, orb_false_iff, negb_false_iff.
  rewrite Nat.eqb_eq, isEmpty_false. split; [tauto|].
  intros H. split; [|done]. intros ->. discriminate.
Qed.

Lemma ageOk_nonzero a : ageOk a = true <-> exists n, a = Some n /\ n <> 0%Z.
Proof.
  destruct a as [n|]; simpl.
  - rewrite negb_true_iff, Z.eqb_neq. split; [by exists n|].
    by intros (? & [= <-] & ?).
  - split; [done|]. by intros (? & ? & _).
Qed.

(** The error of a block is that of its first failing test, in the order
    gender, name, email, phone, age. *)
Lemma checkRecipient_error div e :
  checkRecipient div = inl e ->
  (e = ERR_GENDER /\ recipient_gender div = ""%string) \/
  (e = ERR_NAME /\ recipient_gender div <> ""%string /\
     recipient_name div = ""%string) \/
  (e = ERR_EMAIL /\ recipient_gender div <> ""%string /\
     recipient_name div <> ""%string /\ recipient_email div = ""%string) \/
  (e = ERR_PHONE /\ recipient_gender div <> ""%string /\
     recipient_name div <> ""%string /\ recipient_email div <> ""%string /\
     String.length (recipient_phone div) <> 10) \/
  (e = ERR_AGE /\ recipient_gender div <> ""%string /\
     recipient_name div <> ""%string /\ recipient_email div <> ""%string /\
     String.length (recipient_phone div) = 10 /\
     ~ exists n, JS.parseInt (recipient_age div) = Some n /\ n <> 0%Z).
Proof.
  unfold checkRecipient. cbv zeta.
  cbn [cr_full_name cr_email cr_phone_number cr_age]. intros H.
  destruct (JS.isEmpty (recipient_gender div)) eqn:Eg.
  { injection H as <-. left. by apply isEmpty_true in Eg. }
  apply isEmpty_false in Eg. right.
  destruct (JS.isEmpty (recipient_name div)) eqn:En.
  { injection H as <-. left. by apply isEmpty_true in En. }
  apply isEmpty_false in En. right.
  destruct (JS.isEmpty (recipient_email div)) eqn:Ee.
  { injection H as <-. left. by apply isEmpty_true in Ee. }
  apply isEmpty_false in Ee. right.
  destruct (phoneOk (recipient_phone div)) eqn:Ep; simpl in H.
  2:{ injection H as <-. left. repeat split; try done.
      intros Hl. apply phoneOk_length in Hl. congruence. }
  apply phoneOk_length in Ep. right.
  destruct (ageOk (JS.parseInt (recipient_age div))) eqn:Ea; simpl in H;
    [done|].
  injection H as <-. repeat split; try done.
  intros Hn. apply ageOk_nonzero in Hn. congruence.
Qed.

Lemma passes_iff div :
  passes div = true <->
  recipient_gender div <> ""%string /\ recipient_name div <> ""%string /\
  recipient_email div <> ""%string /\
  String.length (recipient_phone div) = 10 /\
  exists n, JS.parseInt (recipient_age div) = Some n /\ n <> 0%Z.
Proof.
  unfold passes. split.
  - unfold checkRecipient. cbv zeta.
    cbn [cr_full_name cr_email cr_phone_number cr_age].
    destruct (JS.isEmpty (recipient_gender div)) eqn:Eg; [done|].
    destruct (JS.isEmpty (recipient_name div)) eqn:En; [done|].
    destruct (JS.isEmpty (recipient_email div)) eqn:Ee; [done|].
    destruct (phoneOk (recipient_phone div)) eqn:Ep; [|done].
    destruct (ageOk (JS.parseInt (recipient_age div))) eqn:Ea; [|done].
    intros _. apply isEmpty_false in Eg, En, Ee.
    apply phoneOk_length in Ep. apply ageOk_nonzero in Ea. done.
  - intros (Hg & Hn & He & Hp & Ha).
    destruct (checkRecipient div) as [e|r] eqn:E; [|done].
    apply checkRecipient_error in E.
    destruct E as [[_ ?]|[(_ & _ & ?)|[(_ & _ & _ & ?)|[(_ & _ & _ & _ & ?)
                  |(_ & _ & _ & _ & _ & ?)]]]]; done.
Qed.

Lemma forEach_error_sticks e pushed divs :
  foldl forEachBody (Some e, pushed) divs = (Some e, pushed).
Proof. induction divs as [|d divs IH]; [done|]. simpl. exact IH. Qed.

Lemma forEach_passing pre rest pushed :
  Forall (fun d => passes d = true) pre ->
  foldl forEachBody (None, pushed) (pre ++ rest) =
  foldl forEachBody (None, pushed ++ pushedFor pre) rest.
Proof.
  intros H. revert pushed.
  induction H as [|d pre Hd _ IH]; intros pushed; simpl.
  - by rewrite app_nil_r.
  - unfold passes in Hd. unfold pushedFor. simpl.
    destruct (checkRecipient d) as [?|r]; [done|].
    rewrite IH. by rewrite <- app_assoc.
Qed.

(** The first block that fails decides the outcome; the blocks after it
    are not examined. *)
Lemma checkRecipients_first_error pre div post e :
  Forall (fun d => passes d = true) pre ->
  checkRecipient div = inl e ->
  checkRecipients (pre ++ div :: post) = (Some e, pushedFor pre).
Proof.
  intros Hpre He. unfold checkRecipients.
  rewrite (forEach_passing _ _ _ Hpre). simpl. rewrite He.
  apply forEach_error_sticks.
Qed.


(** Every list of blocks either passes as a whole or has a first block
    that fails. *)
Lemma first_failing_block divs :
  Forall (fun d => passes d = true) divs \/
  exists pre div post e, divs = pre ++ div :: post /\
    Forall (fun d => passes d = true) pre /\ checkRecipient div = inl e.
Proof.
  induction divs as [|d divs IH]; [by left|].
  destruct (checkRecipient d) as [e|r] eqn:E.
  - right. exists [], d, divs, e. by repeat split.
  - assert (Hd : passes d = true) by (unfold passes; by rewrite E).
    destruct IH as [Hall|(pre & div & post & e & -> & Hpre & He)].
    + left. by constructor.
    + right. exists (d :: pre), div, post, e. repeat split; [|done].
      by constructor.
Qed.

(** A validation error stops the handler after its alert. *)
Lemma submit_blocked f signup answers e :
  validate f = inl e ->
  submit f signup answers = [Alert MSG_REGISTERING; Alert e].
Proof. intros H. unfold submit. by rewrite H. Qed.

Lemma validate_first_error f pre div post e :
  caretakerMissing f = false ->
  recipientDivs f = pre ++ div :: post ->
  Forall (fun d => passes d = true) pre ->
  checkRecipient div = inl e ->
  validate f = inl e.
Proof.
  intros Hc Hd Hpre He. unfold validate.
  by rewrite Hc, Hd, (checkRecipients_first_error _ _ _ _ Hpre He).
Qed.

(** A form with a failing block is never sent. *)
Lemma validate_failing_block f div :
  div ∈ recipientDivs f -> passes div = false ->
  exists e, validate f = inl e.
Proof.
  intros Hin Hfail. unfold validate.
  destruct (caretakerMissing f); [by eexists|].
  destruct (first_failing_block (recipientDivs f))
    as [Hall|(pre & d & post & e & Hd & Hpre & He)].
  - rewrite Forall_forall in Hall. apply Hall in Hin. congruence.
  - rewrite Hd, (checkRecipients_first_error _ _ _ _ Hpre He). by eexists.
Qed.

(** C6 (as amended). A submission in which some recipient block has a
    phone number whose length is not 10 is always stopped before any
    network call, with a single error alert. The alert is the one for
    the phone number when the caretaker fields are filled, every block
    before it passes, and its own gender, name and email are filled;
    otherwise it is the alert of the test that fails first. The phone
    test looks at the length only: a string passes iff its length is 10. *)
Theorem short_phone_blocks_submission :
  forall f signup answers pre div post,
    recipientDivs f = pre ++ div :: post ->
    String.length (recipient_phone div) <> 10 ->
    (exists e, submit f signup answers = [Alert MSG_REGISTERING; Alert e]) /\
    List.filter isNetworkCall (submit f signup answers) = [] /\
    (caretakerMissing f = false ->
     Forall (fun d => passes d = true) pre ->
     recipient_gender div <> ""%string ->
     recipient_name div <> ""%string ->
     recipient_email div <> ""%string ->
     submit f signup answers = [Alert MSG_REGISTERING; Alert ERR_PHONE]) /\
    (forall s, phoneOk s = true <-> String.length s = 10).
Proof.
  intros f signup answers pre div post Hd Hlen.
  assert (Hfail : passes div = false).
  { destruct (passes div) eqn:E; [|done].
    apply passes_iff in E as (_ & _ & _ & Hp & _). done. }
  assert (Hin : div ∈ recipientDivs f).
  { rewrite Hd. apply elem_of_app. right. apply elem_of_cons. by left. }
  destruct (validate_failing_block f div Hin Hfail) as [e He].
  pose proof (submit_blocked f signup answers e He) as Hs.
  split; [by exists e|]. split; [by rewrite Hs|].
  split; [|apply phoneOk_length].
  intros Hc Hpre Hg Hn Hem. apply submit_blocked.
  apply (validate_first_error f pre div post); try done.
  destruct (checkRecipient div) as [e'|r] eqn:E.
  - apply checkRecipient_error in E.
    destruct E as [[_ ?]|[(_ & _ & ?)|[(_ & _ & _ & ?)|[(-> & _)
                  |(_ & _ & _ & _ & ? & _)]]]]; done.
  - unfold passes in Hfail. by rewrite E in Hfail.
Qed.

Lemma short_phone_blocks_submission_witness :
  let div := mkDiv "Asha Rao" "asha@example.org" "12345" "71" "female" "true"
               None in
  let f := mkForm "Ravi Rao" "ravi@example.org" "ravi" "9876543210" "secret"
             [div] in
  submit f (SignupHttp true "" "token" [7]) (fun _ => UploadOk) =
  [Alert MSG_REGISTERING; Alert ERR_PHONE].
Proof.
  intros div f.
  destruct (short_phone_blocks_submission f (SignupHttp true "" "token" [7])
              (fun _ => UploadOk) [] div []) as (_ & _ & H & _).
  - reflexivity.
  - simpl. lia.
  - apply H; [reflexivity | constructor | discriminate..].
Defined.

(** C6 (as stated) fails twice. A block with the phone number "12345" and
    an empty name is stopped with the alert for the name, not the one for
    the phone number. And a phone number of ten letters passes the phone
    test, so the form is sent. *)
Lemma short_phone_other_alert_and_letters_accepted :
  let noName := mkDiv "" "asha@example.org" "12345" "71" "female" "true" None in
  let letters := mkDiv "Asha Rao" "asha@example.org" "abcdefghij" "71" "female"
                   "true" None in
  let form := mkForm "Ravi Rao" "ravi@example.org" "ravi" "9876543210" "secret" in
  let server := SignupHttp true "" "" [] in
  submit (form [noName]) server (fun _ => UploadOk) =
    [Alert MSG_REGISTERING; Alert ERR_NAME] /\
  ERR_NAME <> ERR_PHONE /\
  phoneOk "abcdefghij" = true /\
  List.filter isNetworkCall (submit (form [letters]) server (fun _ => UploadOk)) =
    [PostSignup
       (mkPayload "Ravi Rao" "ravi@example.org" "ravi" "9876543210" "secret"
          [mkRecipient "Asha Rao" "asha@example.org" "abcdefghij" (Some 71%Z)
             "female" true])].
Proof. repeat split; by vm_compute. Qed.

(** C7 (as amended). A recipient block passes validation iff a gender is
    selected, name and email are filled, the phone number has length 10
    and [parseInt] of the age is a number other than 0. The error of a
    block is that of its first failing test, in the order gender, name,
    email, phone, age; the first block that fails decides the error, the
    blocks after it are not examined, and the handler stops after that
    one alert. *)
Theorem recipient_passes_iff_and_first_error_wins :
  forall f signup answers pre div post,
    recipientDivs f = pre ++ div :: post ->
    caretakerMissing f = false ->
    Forall (fun d => passes d = true) pre ->
    (passes div = true <->
       recipient_gender div <> ""%string /\ recipient_name div <> ""%string /\
       recipient_email div <> ""%string /\
       String.length (recipient_phone div) = 10 /\
       exists n, JS.parseInt (recipient_age div) = Some n /\ n <> 0%Z) /\
    (forall e, checkRecipient div = inl e ->
       checkRecipients (pre ++ div :: post) = (Some e, pushedFor pre) /\
       submit f signup answers = [Alert MSG_REGISTERING; Alert e] /\
       ((e = ERR_GENDER /\ recipient_gender div = ""%string) \/
        (e = ERR_NAME /\ recipient_gender div <> ""%string /\
           recipient_name div = ""%string) \/
        (e = ERR_EMAIL /\ recipient_gender div <> ""%string /\
           recipient_name div <> ""%string /\ recipient_email div = ""%string) \/
        (e = ERR_PHONE /\ recipient_gender div <> ""%string /\
           recipient_name div <> ""%string /\
           recipient_email div <> ""%string /\
           String.length (recipient_phone div) <> 10) \/
        (e = ERR_AGE /\ recipient_gender div <> ""%string /\
           recipient_name div <> ""%string /\
           recipient_email div <> ""%string /\
           String.length (recipient_phone div) = 10 /\
           ~ exists n, JS.parseInt (recipient_age div) = Some n /\ n <> 0%Z))).
Proof.
  intros f signup answers pre div post Hd Hc Hpre.
  split; [apply passes_iff|].
  intros e He. split; [by apply checkRecipients_first_error|].
  split; [|by apply checkRecipient_error].
  apply submit_blocked. by apply (validate_first_error f pre div post).
Qed.

Lemma recipient_passes_iff_and_first_error_wins_witness :
  let ok := mkDiv "Asha Rao" "asha@example.org" "9876501234" "71" "female"
              "true" None in
  let bad := mkDiv "" "" "123" "" "male" "false" None in
  let f := mkForm "Ravi Rao" "ravi@example.org" "ravi" "9876543210" "secret"
             [ok; bad; bad] in
  passes ok = true /\
  submit f (SignupHttp true "" "" []) (fun _ => UploadOk) =
    [Alert MSG_REGISTERING; Alert ERR_NAME].
Proof.
  intros ok bad f.
  destruct (recipient_passes_iff_and_first_error_wins f
              (SignupHttp true "" "" []) (fun _ => UploadOk) [ok] bad [bad])
    as [_ H].
  - reflexivity.
  - reflexivity.
  - repeat constructor.
  - split; [reflexivity|]. by destruct (H ERR_NAME eq_refl) as (_ & Hs & _).
Defined.

(** C7 (as stated) fails: a block whose age is "-5" passes validation and
    is sent with the age -5, which is not a positive value. *)
Lemma negative_age_passes :
  let div := mkDiv "Asha Rao" "asha@example.org" "9876501234" "-5" "female"
               "true" None in
  passes div = true /\
  checkRecipient div =
    inr (mkRecipient "Asha Rao" "asha@example.org" "9876501234" (Some (-5)%Z)
           "female" true).
Proof. split; by vm_compute. Qed.

(** The uploads that pairing by position allows from index [i] on. *)
Lemma paired_from i divs created div id :
  divs !! i = Some div -> created !! i = Some id ->
  omap pairedUpload (zip (drop i divs) (drop i created)) =
  match pairedUpload (div, id) with
  | Some e => [e]
  | None => []
  end ++ omap pairedUpload (zip (drop (S i) divs) (drop (S i) created)).
Proof.
  intros Hd Hc.
  rewrite (drop_S divs div i Hd), (drop_S created id i Hc). simpl.
  by destruct (pairedUpload (div, id)).
Qed.

Lemma paired_none i divs created :
  ~ (i < length divs /\ i < length created) ->
  omap pairedUpload (zip (drop i divs) (drop i created)) = [].
Proof.
  intros H.
  destruct (decide (i < length divs)) as [Hd|Hd].
  - rewrite (drop_ge created) by lia. by destruct (drop i divs).
  - by rewrite (drop_ge divs) by lia.
Qed.

(** The loop makes the paired uploads in order and stops at the first
    that fails; with no failure it makes them all. *)
Lemma uploadReports_paired i divs created answers :
  let paired := omap pairedUpload (zip (drop i divs) (drop i created)) in
  (uploadReports i divs created answers).1 `prefix_of` paired /\
  ((uploadReports i divs created answers).2 = None ->
   (uploadReports i divs created answers).1 = paired) /\
  ((forall j, uploadError (answers j) = None) ->
   (uploadReports i divs created answers).2 = None).
Proof.
  funelim (uploadReports i divs created answers); simpl;
    try match goal with
    | Hn : ~ (_ < _ /\ _ < _) |- _ =>
        rewrite paired_none by done; by split; [|split]
    | Hl : _ !! _ = None, Hlt : _ < _ /\ _ < _ |- _ =>
        apply lookup_ge_None in Hl; lia
    end;
    match goal with
    | Hd : divs !! i = Some ?d, Hc : created !! i = Some ?c |- _ =>
        rewrite (paired_from i divs created d c Hd Hc)
    end;
    unfold pairedUpload at 1 2 3; simpl;
    match goal with Hs : selectedFile _ = _ |- _ => rewrite Hs end; simpl.
  - (* no file in block [i] *)
    assumption.
  - (* the upload at [i] fails *)
    split; [by apply prefix_cons, prefix_nil|]. split; [done|].
    intros Hok. specialize (Hok i). congruence.
  - (* the upload at [i] succeeds *)
    match goal with
    | IH : _ `prefix_of` _ /\ _ |- _ => destruct IH as (Hp & Hn & Hall)
    end.
    destruct (uploadReports (S i) divs created answers) as [later err].
    simpl in *.
    split; [by apply prefix_cons|]. split; [|done].
    intros ->. by rewrite Hn.
Qed.

(** C10. After a successful signup the report uploads are those of the
    blocks paired by position with the created recipients: the block at
    index [i] goes to the id at index [i], for [i] below both lengths,
    in order, up to the first upload that fails. A block at or beyond
    the length of the created list is passed over with no request and no
    alert, whatever file it holds. *)
Theorem reports_uploaded_for_first_min_blocks_by_index :
  forall f created token answers body,
    validate f = inr body ->
    let divs := recipientDivs f in
    let paired := omap pairedUpload (zip divs created) in
    let result := uploadReports 0 divs created answers in
    result.1 `prefix_of` paired /\
    (forall id file, PostReport id file ∈ result.1 ->
       exists i div, i < length divs `min` length created /\
         divs !! i = Some div /\ created !! i = Some id /\
         selectedFile div = Some file) /\
    ((forall j, uploadError (answers j) = None) ->
       result = (paired, None) /\
       submit f (SignupHttp true "" token created) answers =
         Alert MSG_REGISTERING :: PostSignup body ::
         (if JS.isEmpty token then [] else [StoreToken token]) ++
         paired ++ [Alert MSG_DONE; Redirect "profile.html"]).
Proof.
  intros f created token answers body Hv divs paired result.
  destruct (uploadReports_paired 0 divs created answers) as (Hp & Hn & Hall).
  simpl in Hp, Hn. rewrite !drop_0 in Hp, Hn. fold paired result in Hp, Hn.
  split; [exact Hp|]. split.
  - intros id file Hin.
    assert (Hin' : PostReport id file ∈ paired).
    { destruct Hp as [k ->]. apply elem_of_app. by left. }
    apply list_elem_of_omap in Hin' as ([div id'] & Hz & Hpair).
    unfold pairedUpload in Hpair. simpl in Hpair.
    destruct (selectedFile div) as [file'|] eqn:Ef; [|done].
    injection Hpair as <- <-.
    apply list_elem_of_lookup in Hz as [i Hi].
    apply lookup_zip_with_Some in Hi as (div2 & id2 & [= <- <-] & Hd & Hc).
    exists i, div. repeat split; try done.
    apply lookup_lt_Some in Hd, Hc. lia.
  - intros Hok. specialize (Hall Hok). specialize (Hn Hall).
    fold result in Hall.
    assert (Hr : result = (paired, None)).
    { destruct result as [r e]. simpl in *. by subst. }
    split; [exact Hr|]. unfold submit. rewrite Hv.
    fold divs. fold result. by rewrite Hr.
Qed.

Lemma reports_uploaded_for_first_min_blocks_by_index_witness :
  let block file := mkDiv "Asha Rao" "asha@example.org" "9876501234" "71"
                      "female" "true" (Some [file]) in
  let f := mkForm "Ravi Rao" "ravi@example.org" "ravi" "9876543210" "secret"
             [block "a.pdf"; block "b.pdf"; block "c.pdf"] in
  uploadReports 0 (recipientDivs f) [41; 42] (fun _ => UploadOk) =
  ([PostReport 41 "a.pdf"; PostReport 42 "b.pdf"], None).
Proof.
  intros block f.
  destruct (reports_uploaded_for_first_min_blocks_by_index f [41; 42] "t"
              (fun _ => UploadOk)
              (mkPayload "Ravi Rao" "ravi@example.org" "ravi" "9876543210"
                 "secret" (pushedFor (recipientDivs f))))
    as (_ & _ & H).
  - by vm_compute.
  - destruct H as [Hr _]; [reflexivity|]. exact Hr.
Defined.

End RegistrationFormFacts.

(* ===================================================================== *)
(** * Part III: further properties of the code *)
(* ===================================================================== *)

(** ** Alerting monitor: history, counters and timers *)

Section AudioMonitorTraceFacts.
Import EventList AudioMonitor AudioMonitorTrace.

Lemma alertTimes_onScore k k' s dwell w :
  alertTimes k (onScore k' s dwell w) =
  match s with
  | Some score =>
      if Qle_bool DETECTION_THRESHOLD score && alerts k' score w
         && bool_decide (k' = k)
      then clock w :: alertTimes k w else alertTimes k w
  | None => alertTimes k w
  end.
Proof.
  unfold alertTimes. rewrite onScore_effects, omap_app.
  destruct s as [score|]; [|reflexivity].
  destruct (Qle_bool DETECTION_THRESHOLD score); [|reflexivity].
  destruct (alerts k' score w); simpl.
  - destruct (decide (k' = k)) as [->|Hne].
    + by rewrite bool_decide_eq_true_2.
    + by rewrite bool_decide_eq_false_2.
  - reflexivity.
Qed.

Lemma alertTimes_elapse k d w : alertTimes k (elapse d w) = alertTimes k w.
Proof. reflexivity. Qed.

Lemma alertTimes_timerFires k h w :
  alertTimes k (timerFires h w) = alertTimes k w.
Proof.
  unfold timerFires. destruct (timers w !! h) as [[dl k']|]; [|done].
  by destruct (dl <=? clock w)%Z.
Qed.

Lemma spaced_onScore k k' s dwell w :
  consistent w ->
  (forall older t newer, alertTimes k w = newer ++ t :: older ->
     forall t', t' ∈ older -> (1000 < t - t')%Z) ->
  forall older t newer,
    alertTimes k (onScore k' s dwell w) = newer ++ t :: older ->
    forall t', t' ∈ older -> (1000 < t - t')%Z.
Proof.
  intros C IH older t newer E.
  rewrite alertTimes_onScore in E.
  destruct s as [score|]; [|by eapply IH].
  destruct (Qle_bool DETECTION_THRESHOLD score && alerts k' score w
            && bool_decide (k' = k)) eqn:Ec; [|by eapply IH].
  apply andb_true_iff in Ec as [Ec ->%bool_decide_eq_true].
  apply andb_true_iff in Ec as [_ Ea].
  unfold alerts in Ea. apply andb_true_iff in Ea as [_ Ho].
  destruct newer as [|n newer]; simpl in E.
  - injection E as <- <-. by apply outsideDebounce_history.
  - injection E as _ E. by eapply IH.
Qed.

(** Each alert time exceeds every older one of its label by more than
    1000 ms. *)
Lemma alertTimes_spaced k w :
  reachable w ->
  forall older t newer, alertTimes k w = newer ++ t :: older ->
  forall t', t' ∈ older -> (1000 < t - t')%Z.
Proof.
  induction 1 as [t0 markup|tk w Hw IH].
  - intros older t newer E. by destruct newer.
  - pose proof (reachable_consistent w Hw) as C.
    destruct tk as [d|h|k' s dwell|labels scores d1 d2]; simpl.
    + exact IH.
    + intros older t newer. rewrite alertTimes_timerFires. apply IH.
    + by apply spaced_onScore.
    + unfold listenCallback. apply spaced_onScore.
      * by apply consistent_onScore.
      * by apply spaced_onScore.
Qed.

(** X1. In every world the monitor can reach, two alerts for the same
    label are more than 1000 ms apart. *)
Theorem alerts_for_a_label_more_than_1000ms_apart :
  forall w (k : kind) (i j : nat) (ti tj : Z),
    reachable w -> i < j ->
    alertTimes k w !! i = Some ti -> alertTimes k w !! j = Some tj ->
    (1000 < ti - tj)%Z.
Proof.
  intros w k i j ti tj Hw Hij Hi Hj.
  apply (alertTimes_spaced k w Hw (drop (S i) (alertTimes k w)) ti
           (take i (alertTimes k w))).
  - rewrite <- (drop_S _ _ _ Hi). symmetry. apply take_drop.
  - apply list_elem_of_lookup. exists (j - S i).
    rewrite lookup_drop. by replace (S i + (j - S i)) with j by lia.
Qed.

Lemma alerts_for_a_label_more_than_1000ms_apart_witness :
  let w := onScore cough (Some 0.95%Q) 0
             (elapse 1500 (onScore cough (Some 0.95%Q) 0 (initial 5000 []))) in
  alertTimes cough w = [6500%Z; 5000%Z] /\ (1000 < 6500 - 5000)%Z.
Proof.
  intros w. split; [reflexivity|].
  apply (alerts_for_a_label_more_than_1000ms_apart w cough 0 1).
  - apply (reach_run (Score cough (Some 0.95%Q) 0)),
          (reach_run (Elapse 1500)),
          (reach_run (Score cough (Some 0.95%Q) 0)), reach_initial.
  - lia.
  - reflexivity.
  - reflexivity.
Defined.

(** The part of [handleDetection] before the cooldown is restarted leaves
    the timers alone and does not turn the clock back. *)
Lemma handleDetection_split k score dwell w :
  exists w2,
    handleDetection k score dwell w = restartCooldown k w2 /\
    timers w2 = timers w /\ detectionTimeouts w2 = detectionTimeouts w /\
    nextHandle w2 = nextHandle w /\ (clock w <= clock w2)%Z.
Proof.
  unfold handleDetection.
  destruct (Qle_bool ALERT_THRESHOLD score);
    [destruct (outsideDebounce k (clock w) _)|];
    eexists; (split; [reflexivity|]); simpl; repeat split; lia.
Qed.

Lemma deadlines_within_2000ms w :
  reachable w ->
  forall h dl k, timers w !! h = Some (dl, k) -> (dl <= clock w + 2000)%Z.
Proof.
  assert (Hscore : forall k s dwell w,
    (forall h dl k, timers w !! h = Some (dl, k) -> (dl <= clock w + 2000)%Z) ->
    forall h dl k0, timers (onScore k s dwell w) !! h = Some (dl, k0) ->
      (dl <= clock (onScore k s dwell w) + 2000)%Z).
  { clear w. intros k s dwell w IH h dl k0. unfold onScore.
    destruct (JS.ge_number s DETECTION_THRESHOLD); [|apply IH].
    destruct s as [score|]; [|apply IH].
    destruct (handleDetection_split k score dwell w)
      as (w2 & -> & Ht & Hs & _ & Hc).
    simpl. rewrite Ht, Hs.
    intros [[<- E]|[_ Hl]]%lookup_insert_Some.
    - injection E as <- _. lia.
    - assert (Hw : timers w !! h = Some (dl, k0)).
      { destruct (detectionTimeouts w k); [|done].
        by apply lookup_delete_Some in Hl as [_ Hl]. }
      apply IH in Hw. lia. }
  induction 1 as [t0 markup|tk w Hw IH].
  - intros h dl k Hl. simpl in Hl. by rewrite lookup_empty in Hl.
  - destruct tk as [d|h0|k' s dwell|labels scores d1 d2]; simpl.
    + intros h dl k Hl. apply IH in Hl. lia.
    + intros h dl k. unfold timerFires.
      destruct (timers w !! h0) as [[dl0 k0]|]; [|apply IH].
      destruct (dl0 <=? clock w)%Z; [|apply IH]. simpl.
      intros [_ Hl]%lookup_delete_Some. by eapply IH.
    + by apply Hscore.
    + unfold listenCallback. by apply Hscore, Hscore.
Qed.

(** X2. In every world the monitor can reach at most one cooldown timer
    is pending per label, it is the one whose handle is stored for the
    label, and it is due at most 2000 ms from now. *)
Theorem one_cooldown_timer_per_label :
  forall w (k : kind) (h h' : nat) (dl dl' : Z),
    reachable w ->
    timers w !! h = Some (dl, k) -> timers w !! h' = Some (dl', k) ->
    h = h' /\ dl = dl' /\ detectionTimeouts w k = Some h /\
    (dl <= clock w + 2000)%Z.
Proof.
  intros w k h h' dl dl' Hw Hh Hh'.
  destruct (reachable_consistent w Hw) as [_ _ _ Hstored _ _].
  pose proof (Hstored _ _ _ Hh) as E. pose proof (Hstored _ _ _ Hh') as E'.
  assert (h = h') as <- by congruence.
  repeat split; [congruence|done|by eapply deadlines_within_2000ms].
Qed.

Lemma one_cooldown_timer_per_label_witness :
  let w := onScore cough (Some 0.8%Q) 0
             (elapse 300 (onScore cough (Some 0.8%Q) 0 (initial 0 []))) in
  timers w = {[2 := (2300%Z, cough)]} /\ detectionTimeouts w cough = Some 2.
Proof.
  intros w.
  assert (Hl : timers w !! 2 = Some (2300%Z, cough)) by reflexivity.
  destruct (one_cooldown_timer_per_label w cough 2 2 2300 2300)
    as (_ & _ & Hs & _).
  - apply (reach_run (Score cough (Some 0.8%Q) 0)),
          (reach_run (Elapse 300)),
          (reach_run (Score cough (Some 0.8%Q) 0)), reach_initial.
  - exact Hl.
  - exact Hl.
  - split; [by vm_compute | exact Hs].
Defined.

Lemma onScore_counters k score dwell w :
  Qle_bool DETECTION_THRESHOLD score = true ->
  let w' := onScore k (Some score) dwell w in
  totalDetections w' = S (totalDetections w) /\
  coughDetections w' =
    (if bool_decide (k = cough) then S (coughDetections w)
     else coughDetections w) /\
  forall k', detectionCounts w' k' =
    if alerts k score w && bool_decide (k = k')
    then S (detectionCounts w k') else detectionCounts w k'.
Proof.
  intros Ed. unfold onScore. simpl. rewrite Ed.
  unfold handleDetection, alerts. rewrite outsideDebounce_countDetection.
  destruct (Qle_bool ALERT_THRESHOLD score);
    [destruct (outsideDebounce k (clock w) w)|];
    simpl; rewrite Ed, andb_true_r; (split; [done|]); (split; [done|]);
    intros k'; unfold set_key; destruct k, k'; done.
Qed.

Lemma counted_onScore k s dwell w : counted w -> counted (onScore k s dwell w).
Proof.
  intros (Ht & Hc & Hle & Hk).
  destruct s as [score|]; [|done].
  destruct (Qle_bool DETECTION_THRESHOLD score) eqn:Ed;
    [|unfold onScore; simpl; by rewrite Ed].
  destruct (onScore_counters k score dwell w Ed) as (Ht' & Hc' & Hk').
  unfold counted, occurrences in *.
  rewrite Ht', Hc', onScore_effects, Ed.
  set (new := (if alerts k score w
        then [Recording k score; Alerted k (clock w) score] else [])
        ++ [Handled k (clock w) score]).
  rewrite !List.filter_app, !length_app.
  assert (Hnew : forall f,
    length (List.filter f new) =
    (if alerts k score w
     then Nat.b2n (f (Recording k score))
          + Nat.b2n (f (Alerted k (clock w) score)) else 0)
    + Nat.b2n (f (Handled k (clock w) score))).
  { intros f. subst new. destruct (alerts k score w); simpl;
      repeat (match goal with |- context [f ?e] => destruct (f e) end);
      reflexivity. }
  rewrite !Hnew. simpl.
  repeat split.
  - destruct (alerts k score w); simpl; lia.
  - destruct (alerts k score w), k; simpl; lia.
  - destruct k; simpl; lia.
  - rewrite Hk', alertTimes_onScore, Ed. simpl.
    destruct (Hk k0) as [H1 _].
    destruct (alerts k score w), (bool_decide (k = k0)); simpl; lia.
  - rewrite List.filter_app, length_app, Hnew, alertTimes_onScore, Ed. simpl.
    destruct (Hk k0) as [_ H2].
    destruct (alerts k score w); simpl; [|lia].
    destruct (decide (k = k0)) as [->|Hne].
    + rewrite !bool_decide_eq_true_2 by done. simpl. lia.
    + rewrite !bool_decide_eq_false_2 by done. simpl. lia.
Qed.

Lemma reachable_counted w : reachable w -> counted w.
Proof.
  induction 1 as [t0 markup|tk w _ IH].
  - unfold counted, occurrences. simpl. repeat split; lia.
  - destruct tk as [d|h|k s dwell|labels scores d1 d2]; simpl.
    + exact IH.
    + unfold timerFires. destruct (timers w !! h) as [[dl k]|]; [|exact IH].
      destruct (dl <=? clock w)%Z; exact IH.
    + by apply counted_onScore.
    + unfold listenCallback. by do 2 apply counted_onScore.
Qed.

(** X3. In every world the monitor can reach, [totalDetections] is the
    number of runs of [handleDetection], [coughDetections] the number of
    those for cough, so it never exceeds the total, and for each label
    [detectionCounts] is the number of alerts shown, each of which
    started exactly one recording. *)
Theorem counters_count_detections_alerts_recordings :
  forall w (k : kind),
    reachable w ->
    totalDetections w = occurrences isAnyHandled w /\
    coughDetections w = occurrences (isHandled cough) w /\
    coughDetections w <= totalDetections w /\
    detectionCounts w k = length (alertTimes k w) /\
    occurrences (isRecording k) w = length (alertTimes k w).
Proof.
  intros w k Hw. destruct (reachable_counted w Hw) as (Ht & Hc & Hle & Hk).
  destruct (Hk k). done.
Qed.

Lemma counters_count_detections_alerts_recordings_witness :
  let w := listenCallback ["Cough"; "Snore"] [0.95%Q; 0.8%Q] 0 0
             (initial 0 []) in
  (totalDetections w, coughDetections w) = (2, 1) /\
  detectionCounts w cough = length (alertTimes cough w).
Proof.
  intros w.
  destruct (counters_count_detections_alerts_recordings w cough)
    as (_ & _ & _ & H & _).
  - apply (reach_run (Listen ["Cough"; "Snore"] [0.95%Q; 0.8%Q] 0 0)),
          reach_initial.
  - split; [by vm_compute | exact H].
Defined.

Lemma onScore_events k s dwell w :
  detectedEventList (onScore k s dwell w) =
  match s with
  | Some score =>
      if Qle_bool DETECTION_THRESHOLD score && alerts k score w
      then addDetectedEvent (clock w + Z.of_N dwell) (kind_name k) score
             (detectedEventList w)
      else detectedEventList w
  | None => detectedEventList w
  end.
Proof.
  unfold onScore. destruct s as [score|]; simpl; [|done].
  destruct (Qle_bool DETECTION_THRESHOLD score); [|done].
  apply handleDetection_events.
Qed.

Lemma alertLog_onScore k s dwell w :
  alertLog (onScore k s dwell w) =
  match s with
  | Some score =>
      if Qle_bool DETECTION_THRESHOLD score && alerts k score w
      then (kind_name k, score) :: alertLog w else alertLog w
  | None => alertLog w
  end.
Proof.
  unfold alertLog. rewrite onScore_effects, omap_app.
  destruct s as [score|]; [|done].
  destruct (Qle_bool DETECTION_THRESHOLD score); [|done].
  by destruct (alerts k score w).
Qed.

Lemma shown_addDetectedEvent now label c nodes :
  shown (addDetectedEvent now label c nodes) = (label, c) :: take 9 (shown nodes).
Proof.
  unfold shown. rewrite addDetectedEvent_children, fmap_cons, fmap_take.
  reflexivity.
Qed.

Lemma showsLastTen_onScore m k s dwell w :
  showsLastTen m w -> showsLastTen m (onScore k s dwell w).
Proof.
  unfold showsLastTen. intros H.
  rewrite onScore_events, alertLog_onScore.
  destruct s as [score|]; [|done].
  destruct (Qle_bool DETECTION_THRESHOLD score && alerts k score w); [|done].
  rewrite shown_addDetectedEvent, H. simpl. f_equal.
  destruct (alertLog w) as [|a log]; [done|].
  rewrite take_take. reflexivity.
Qed.

Lemma showsLastTen_run m t w : showsLastTen m w -> showsLastTen m (run t w).
Proof.
  intros H. destruct t as [d|h|k s dwell|labels scores d1 d2]; simpl.
  - exact H.
  - unfold timerFires. destruct (timers w !! h) as [[dl k]|]; [|exact H].
    destruct (dl <=? clock w)%Z; exact H.
  - by apply showsLastTen_onScore.
  - unfold listenCallback. by do 2 apply showsLastTen_onScore.
Qed.

(** X4. After any run of tasks from a freshly loaded page, the event list
    shows, newest first, the label and score of the last ten alerts,
    filled up behind them with the entries the page started with; with no
    alert yet it shows the starting entries unchanged. *)
Theorem event_list_shows_last_ten_alerts :
  forall (ts : list task) (t0 : Z) (markup : list node),
    let w := runAll ts (initial t0 markup) in
    shown (detectedEventList w) =
    match alertLog w with
    | [] => shown markup
    | _ :: _ => take 10 (alertLog w ++ shown markup)
    end.
Proof.
  intros ts t0 markup.
  assert (G : forall w, showsLastTen (shown markup) w ->
                        showsLastTen (shown markup) (runAll ts w)).
  { induction ts as [|t ts IH]; intros w H; [exact H|].
    simpl. by apply IH, showsLastTen_run. }
  apply G. reflexivity.
Qed.

(** Twelve alerts for cough, 1100 ms apart: the list holds the last ten. *)
Example twelve_alerts_ten_shown :
  let ts := flat_map (fun _ => [Score cough (Some 0.95%Q) 0; Elapse 1100])
              (seq 0 12) in
  let w := runAll ts (initial 0 [TextNode]) in
  length (alertLog w) = 12 /\ length (shown (detectedEventList w)) = 10.
Proof. split; by vm_compute. Qed.




End AudioMonitorTraceFacts.

(** ** Simple monitor: which label is logged *)

Section SimpleMonitorFacts.
Import EventList SimpleMonitor.

Lemma indexOf_first scores m :
  m ∈ scores ->
  exists i x, indexOf scores m = Some i /\ scores !! i = Some x /\
    (x == m)%Q /\
    forall j y, j < i -> scores !! j = Some y -> ~ (y == m)%Q.
Proof.
  induction scores as [|s rest IH]; [by intros ?%elem_of_nil|].
  intros Hin. simpl.
  destruct (Qeq_bool s m) eqn:E.
  - exists 0, s. apply Qeq_bool_iff in E. repeat split; try done.
    intros j y Hj. lia.
  - assert (Hne : ~ (s == m)%Q).
    { intros H. apply Qeq_bool_iff in H. congruence. }
    apply elem_of_cons in Hin as [->|Hin]; [by destruct Hne|].
    destruct (IH Hin) as (i & x & Hi & Hx & Hxm & Hfirst).
    exists (S i), x. rewrite Hi. repeat split; try done.
    intros [|j] y Hj; simpl.
    + by intros [= <-].
    + apply Hfirst. lia.
Qed.

(** X6. When the highest score is at least 0.78 and every score has a
    label, the simple monitor logs the label of the first class that
    reaches the highest score, with that score as confidence; every class
    before it scores strictly less. *)
Theorem simple_monitor_logs_first_top_scoring_label :
  forall now (labels : list string) (scores : list Q) (l : list node) m,
    maxScore scores = Some m -> (0.78 <= m)%Q ->
    length scores <= length labels ->
    exists i label x,
      labels !! i = Some label /\ scores !! i = Some x /\ (x == m)%Q /\
      (forall j y, j < i -> scores !! j = Some y -> (y < m)%Q) /\
      listenCallback now labels scores l = addDetectedEvent now label m l.
Proof.
  intros now labels scores l m Hm Hge Hlen.
  destruct (maxScore_is_max scores m Hm) as [Hin Hmax].
  destruct (indexOf_first scores m Hin) as (i & x & Hi & Hx & Hxm & Hfirst).
  assert (Hlt : i < length labels).
  { apply lookup_lt_Some in Hx. lia. }
  destruct (lookup_lt_is_Some_2 labels i Hlt) as [label Hlabel].
  exists i, label, x. repeat split; try done.
  - intros j y Hj Hy.
    assert (Hle : (y <= m)%Q).
    { apply Hmax. by eapply list_elem_of_lookup_2. }
    apply Qle_lteq in Hle as [Hlt'|Heq]; [done|].
    by destruct (Hfirst j y Hj Hy).
  - unfold listenCallback. rewrite Hm, Hi.
    apply Qle_bool_iff in Hge. unfold DETECTION_THRESHOLD. rewrite Hge.
    unfold labelAt. simpl. by rewrite Hlabel.
Qed.

Lemma simple_monitor_logs_first_top_scoring_label_witness :
  exists label,
    SimpleMonitor.listenCallback 0 ["noise"; "cough"; "snore"]
      [0.1%Q; 0.85%Q; 0.85%Q] [] = addDetectedEvent 0 label 0.85%Q [].
Proof.
  destruct (simple_monitor_logs_first_top_scoring_label 0
              ["noise"; "cough"; "snore"]%string [0.1%Q; 0.85%Q; 0.85%Q] []
              0.85%Q) as (i & label & x & _ & _ & _ & _ & H).
  - reflexivity.
  - by vm_compute.
  - simpl. lia.
  - exists label. exact H.
Defined.

End SimpleMonitorFacts.

(** ** Audio monitor: what happens to the microphone streams *)

Section AudioSessionFacts.
Import AudioSession AudioSessionOps.

Lemma apply_reachable o st : reachable st -> reachable (apply o st).
Proof.
  intros H. destruct o; simpl.
  - by apply reach_init.
  - by apply reach_setup.
  - by apply reach_toggle.
  - by apply reach_record.
  - by apply reach_timer.
Qed.

Lemma numbered_apply o st : numbered st -> numbered (apply o st).
Proof.
  intros (Hl & Ht & Hm).
  assert (Hnew : forall (live timers : gset nat) n,
    (forall s, s ∈ live -> s < fresh st) -> fresh st < n ->
    forall s, s ∈ {[fresh st]} ∪ live -> s < n).
  { intros live timers n H Hn s [->%elem_of_singleton|Hs]%elem_of_union;
      [lia|]. apply H in Hs. lia. }
  destruct o as [|granted|granted listenOk|granted|r]; simpl.
  - split; [|split]; simpl.
    + intros s Hs. apply Hl in Hs. lia.
    + intros s Hs. apply Ht in Hs. lia.
    + intros s Hmic. destruct (Hm s Hmic). split; [lia|done].
  - unfold setupSettles. destruct (setupPending st); [|done].
    destruct granted; [|done]. split; [|split]; simpl.
    + apply (Hnew _ ∅); [done|lia].
    + intros s Hs. apply Ht in Hs. lia.
    + intros s [= <-]. split; [lia|]. intros Hin. apply Ht in Hin. lia.
  - unfold toggleAudioMonitoring. destruct (isListening st); [done|].
    unfold startListening. destruct granted; (split; [|split]); simpl.
    + intros s [->%elem_of_singleton|Hs]%elem_of_union; [lia|].
      apply Hl in Hs. lia.
    + intros s Hs. apply Ht in Hs. lia.
    + intros s [= <-]. split; [lia|]. intros Hin. apply Ht in Hin. lia.
    + intros s Hs. apply Hl in Hs. lia.
    + intros s Hs. apply Ht in Hs. lia.
    + intros s Hmic. destruct (Hm s Hmic). split; [lia|done].
  - unfold saveDetectionRecording. destruct granted; [|done].
    split; [|split]; simpl.
    + apply (Hnew _ ∅); [done|lia].
    + apply (Hnew _ ∅); [done|lia].
    + intros s Hmic. destruct (Hm s Hmic) as [Hlt Hnot]. split; [lia|].
      intros [->%elem_of_singleton|Hs]%elem_of_union; [lia|done].
  - unfold recordingTimer. destruct (decide (r ∈ stopTimers st)); [|done].
    split; [|split]; simpl.
    + intros s [Hs _]%elem_of_difference. by apply Hl.
    + intros s [Hs _]%elem_of_difference. by apply Ht.
    + intros s Hmic. destruct (Hm s Hmic) as [Hlt Hnot]. split; [done|].
      intros [Hs _]%elem_of_difference. done.
Qed.

Lemma reachable_numbered st : reachable st -> numbered st.
Proof.
  induction 1 as [|st _ IH|granted st _ IH|granted listenOk st _ IH
                 |granted st _ IH|r st _ IH].
  - repeat split; simpl; try done; by intros s Hs%not_elem_of_empty.
  - apply (numbered_apply InitAudioMonitoring), IH.
  - apply (numbered_apply (SetupSettles granted)), IH.
  - apply (numbered_apply (ToggleAudioMonitoring granted listenOk)), IH.
  - apply (numbered_apply (SaveDetectionRecording granted)), IH.
  - apply (numbered_apply (RecordingTimer r)), IH.
Qed.




Lemma kept_apply o st s :
  s < fresh st -> s ∈ liveStreams st -> s ∉ stopTimers st ->
  let st' := apply o st in
  s < fresh st' /\ s ∈ liveStreams st' /\ s ∉ stopTimers st'.
Proof.
  intros Hf Hl Ht.
  destruct o as [|granted|granted listenOk|granted|r]; simpl.
  - repeat split; simpl; try done. lia.
  - unfold setupSettles. destruct (setupPending st); [|done].
    destruct granted; [|done]. repeat split; simpl; try done; [lia|].
    apply elem_of_union. by right.
  - unfold toggleAudioMonitoring. destruct (isListening st); [done|].
    unfold startListening. destruct granted; repeat split; simpl; try done;
      try lia.
    apply elem_of_union. by right.
  - unfold saveDetectionRecording. destruct granted; [|done].
    repeat split; simpl; [lia|apply elem_of_union; by right|].
    intros [->%elem_of_singleton|Hin]%elem_of_union; [lia|done].
  - unfold recordingTimer. destruct (decide (r ∈ stopTimers st)); [|done].
    repeat split; simpl; [done| |].
    + apply elem_of_difference. split; [done|].
      intros Heq%elem_of_singleton. by subst.
    + intros [Hin _]%elem_of_difference. done.
Qed.

(** X8. A stream that is live and has no recording timer (one acquired
    when monitoring was started or by the setup at page load) stays live
    through every later sequence of operations, stops of the monitoring
    included: the handlers only ever stop the stream of a recording. *)
Theorem monitoring_streams_stay_live :
  forall (os : list operation) st s,
    reachable st -> s ∈ liveStreams st -> s ∉ stopTimers st ->
    s ∈ liveStreams (applyAll os st).
Proof.
  intros os st s Hst Hl Ht.
  assert (Hf : s < fresh st).
  { destruct (reachable_numbered st Hst) as (H & _ & _). by apply H. }
  clear Hst. revert st Hf Hl Ht.
  induction os as [|o os IH]; intros st Hf Hl Ht; [exact Hl|].
  simpl. destruct (kept_apply o st s Hf Hl Ht) as (Hf' & Hl' & Ht').
  by apply IH.
Qed.

Lemma monitoring_streams_stay_live_witness :
  1 ∈ liveStreams
        (applyAll [ToggleAudioMonitoring true true; SaveDetectionRecording true;
                   RecordingTimer 2; ToggleAudioMonitoring true true]
           (toggleAudioMonitoring true true pageLoaded)).
Proof.
  apply monitoring_streams_stay_live.
  - apply reach_toggle, reach_loaded.
  - by vm_compute.
  - by vm_compute.
Defined.

End AudioSessionFacts.

(** ** Camera feed: every way of stopping *)

Section VideoFeedFacts.
Import VideoFeed.

(** X9. In every page reached with camera requests settling before the
    next toggle, each way of stopping the feed ([stopVideoFeed] itself,
    the toggle while a stream is held, the live-feed and retry buttons)
    leaves no live stream and nothing in [window.videoStream]; and a
    toggle whose camera request is denied leaves the page as it was. *)
Theorem every_stop_path_releases_the_camera :
  forall p,
    reachable p ->
    (let q := stopVideoFeed p in
     liveStreams q = ∅ /\ videoStream q = None /\ srcObject q = None /\
     paused q = true) /\
    (liveStreams (stopIfHeld p) = ∅ /\ videoStream (stopIfHeld p) = None) /\
    (forall s, videoStream p = Some s ->
       liveStreams (toggleVideoFeed p) = ∅ /\
       videoStream (toggleVideoFeed p) = None) /\
    (videoStream p = None -> awaitingCamera p = 0 ->
       cameraSettles false (toggleVideoFeed p) = p).
Proof.
  intros p Hp. destruct (reachable_tidy p Hp) as [_ Hv].
  assert (Hstop : liveStreams (stopVideoFeed p) = ∅).
  { simpl. destruct (videoStream p); destruct Hv as [Hl _]; rewrite Hl;
      [apply difference_diag_L | done]. }
  split; [by repeat split|]. split; [|split].
  - unfold stopIfHeld. destruct (videoStream p) eqn:E; [by split|].
    destruct Hv as [Hl _]. by split.
  - intros s Hs. unfold toggleVideoFeed. rewrite Hs. by split.
  - intros Hnone Hzero. unfold toggleVideoFeed. rewrite Hnone.
    unfold cameraSettles. simpl. destruct p. simpl in *. by subst.
Qed.

Lemma every_stop_path_releases_the_camera_witness :
  let p := perform (CameraSettles true) (perform ClickToggle pageLoaded) in
  videoStream p = Some 0 /\ liveStreams (toggleVideoFeed p) = ∅.
Proof.
  intros p. split; [reflexivity|].
  destruct (every_stop_path_releases_the_camera p) as (_ & _ & H & _).
  - apply reach_settles, reach_toggle; [apply reach_loaded | reflexivity].
  - by destruct (H 0 eq_refl).
Defined.

End VideoFeedFacts.

(** ** Polling: failures and the shape of every trace *)

Section PollingTraceFacts.
Import Polling PollingTrace.

(** X10. A status request that fails (rejected, or answered with a
    non-2xx code) ends the polling at once: after the rounds before it
    the poller shows the error panel, sets no timer, asks neither the
    status nor the results again, and ignores every later answer. *)
Theorem failed_status_request_ends_polling :
  forall pid (before : list StatusData) failure text later results,
    Forall (fun x => settled x = false) before ->
    failureText failure = Some text ->
    let trace :=
      pollProcessingStatus pid ((StatusOk <$> before) ++ failure :: later)
        results in
    trace = (before ≫= round pid) ++ [FetchStatus pid; ShowError text] /\
    count isFetchStatus trace = S (length before) /\
    count isFetchResults trace = 0.
Proof.
  intros pid before failure text later results Hb Hf trace.
  assert (Ht : trace =
    (before ≫= round pid) ++ [FetchStatus pid; ShowError text]).
  { subst trace. rewrite (poll_unsettled _ _ _ _ Hb). f_equal.
    destruct failure as [reason|code|d]; simpl in *; [| |done];
      by injection Hf as <-. }
  split; [exact Ht|]. rewrite Ht, !count_app.
  destruct (count_rounds pid before) as [-> ->].
  unfold count. split; simpl; lia.
Qed.

Lemma failed_status_request_ends_polling_witness :
  pollProcessingStatus "job"
    ((StatusOk <$> [mkStatus "processing" (Some 40%Z) ""])
       ++ StatusHttpError 500 :: [StatusOk (mkStatus "completed" None "")])
    (ResultsOk (mkResults "out.mp4" [])) =
  [FetchStatus "job"; ShowProgress 40 "Processing..."; SetTimeout 2000;
   FetchStatus "job"; ShowError "Failed to get status: 500"].
Proof.
  destruct (failed_status_request_ends_polling "job"
              [mkStatus "processing" (Some 40%Z) ""] (StatusHttpError 500)
              "Failed to get status: 500"
              [StatusOk (mkStatus "completed" None "")]
              (ResultsOk (mkResults "out.mp4" []))) as [H _].
  - repeat constructor.
  - reflexivity.
  - exact H.
Defined.






End PollingTraceFacts.

(** ** [VideoMonitoring.processVideo] *)

Section VideoMonitoringFacts.
Import VideoMonitoring.

(** X12. A run of [processVideo] with a file selected makes exactly one
    request, with the token read at construction, and always ends with
    the button enabled, the spinner hidden and the label "Process Video";
    the alerts of earlier runs are gone and at most one is shown, none
    exactly when the answer has status "success", in which case the
    result section shows the returned video; after a failure the result
    section is as it was before the run. *)
Theorem processVideo_one_request_button_restored :
  forall (m : Monitor) (r : processResponse) (file : string),
    selectedFile m = Some file ->
    let m' := (processVideo r m).1 in
    (processVideo r m).2 = [PostVideo (token m) file] /\
    processDisabled m' = false /\ spinnerHidden m' = true /\
    processText m' = "Process Video"%string /\
    length (fallAlerts m') <= 1 /\
    (fallAlerts m' = [] <-> succeeded r = true) /\
    (forall status url message, r = ProcessJson status url message ->
       status = "success"%string ->
       resultShown m' = true /\ processedVideoSrc m' = url) /\
    (succeeded r = false ->
       resultShown m' = resultShown m /\
       processedVideoSrc m' = processedVideoSrc m).
Proof.
  intros m r file Hf. unfold processVideo. rewrite Hf. simpl.
  destruct r as [reason|status url message]; simpl.
  - split_and!; try done; try (simpl; lia).
  - destruct (decide (status = "success"%string)) as [->|Hne]; simpl.
    + split_and!; try done; try (simpl; lia).
      by intros ? ? ? [= <- <- <-].
    + rewrite bool_decide_eq_false_2 by done.
      split_and!; try done; try (simpl; lia).
      by intros ? ? ? [= <- <- <-] ?.
Qed.

Lemma processVideo_one_request_button_restored_witness :
  let m := mkMonitor "tok" (Some "fall.mp4") ["old alert"] true
             "Process Video" false false "" in
  (processVideo (ProcessJson "error" "" "bad codec") m).2 =
    [PostVideo "tok" "fall.mp4"] /\
  fallAlerts (processVideo (ProcessJson "error" "" "bad codec") m).1 =
    ["bad codec"].
Proof.
  intros m.
  destruct (processVideo_one_request_button_restored m
              (ProcessJson "error" "" "bad codec") "fall.mp4" eq_refl)
    as (H & _).
  split; [exact H | reflexivity].
Defined.

(** Without a file nothing is requested and the alerts pile up. *)
Example processVideo_without_file :
  let m := mkMonitor "tok" None [] true "Process Video" false false "" in
  let m2 := (processVideo (ProcessRejected "") (processVideo (ProcessRejected "") m).1) in
  m2.2 = [] /\ fallAlerts m2.1 = [MSG_NO_FILE; MSG_NO_FILE].
Proof. split; reflexivity. Qed.

End VideoMonitoringFacts.

(** ** Face registration: captured faces, capture attempts, start-up *)

Section FaceFacts.
Import FaceRegistration FaceSetup.

(** What a captured face looks like on the page. *)
Lemma reachable_layout ui :
  reachable ui ->
  (isFaceCaptured ui = true <-> faceDescriptor ui <> None) /\
  (isFaceCaptured ui = true ->
   captureBtn_display ui = "none"%string /\
   retakeBtn_display ui = "inline-block"%string /\
   video_display ui = "none"%string /\ canvas_display ui = "block"%string).
Proof.
  induction 1 as [markup|d ui Hui [IHd IHl] Hclick|ui _ _].
  - simpl. split; [split; [discriminate|done]|discriminate].
  - destruct (reachable_not_captured ui Hui) as [Hm Hc].
    destruct Hclick as [Hshown _].
    assert (Hnot : isFaceCaptured ui = false).
    { destruct (isFaceCaptured ui); [|done]. by destruct Hshown; apply Hc. }
    assert (Hnone : faceDescriptor ui = None).
    { destruct (faceDescriptor ui) eqn:E; [|done].
      assert (isFaceCaptured ui = true) by (apply IHd; congruence).
      congruence. }
    unfold captureFace. rewrite Hm. simpl.
    destruct (race d) as [[descriptor|]|reason]; simpl.
    + split; [split; [discriminate|done]|done].
    + rewrite Hnot, Hnone. split; [split; [discriminate|done]|discriminate].
    + destruct (decide (reason = TIMEOUT_ERROR)); simpl; rewrite Hnot, Hnone;
        (split; [split; [discriminate|done]|discriminate]).
  - simpl. split; [split; [discriminate|done]|discriminate].
Qed.

(** X13. In every state reached by clicks, a face descriptor is stored
    exactly when [isFaceCaptured] is set, and then the capture button is
    hidden, the retake button shown, and the canvas shown in place of the
    video. *)
Theorem descriptor_present_iff_face_captured :
  forall ui,
    reachable ui ->
    (isFaceCaptured ui = true <-> exists descriptor,
                                    faceDescriptor ui = Some descriptor) /\
    (isFaceCaptured ui = true ->
     captureBtn_display ui = "none"%string /\
     retakeBtn_display ui = "inline-block"%string /\
     video_display ui = "none"%string /\ canvas_display ui = "block"%string).
Proof.
  intros ui Hui. destruct (reachable_layout ui Hui) as [Hd Hl].
  split; [|exact Hl]. rewrite Hd.
  destruct (faceDescriptor ui) as [d|]; split; try done.
  - intros _. by exists d.
  - by intros [? ?].
Qed.

Lemma descriptor_present_iff_face_captured_witness :
  let ui := captureFace (Found [0.5%Q] 800)
              (initialized
                 (mkFaceUI false false None false LABEL_CAPTURE "inline-block"
                    "none" "block" "none" "Camera ready" info)) in
  exists descriptor, faceDescriptor ui = Some descriptor.
Proof.
  intros ui.
  destruct (descriptor_present_iff_face_captured ui) as [H _].
  - apply reach_capture; [apply reach_initialized|].
    split; [discriminate | reflexivity].
  - apply H. reflexivity.
Defined.



(** X15. How [initialize] ends. When the models fail to load, the capture
    button is disabled as "Face Capture Unavailable", no listener is
    attached and the status is the warning. When the models load and the
    webcam is denied, the button is disabled as "Webcam Not Available",
    but the denial message is overwritten: the status ends as the
    success message that invites to capture. When both succeed the
    object is the initialized one from which clicks start. *)
Theorem initialize_outcomes :
  forall (markup : FaceUI) (webcam : bool),
    let failed := initialize false webcam (constructed markup) in
    let denied := initialize true false (constructed markup) in
    let ready := initialize true true (constructed markup) in
    (failed.2 = false /\ modelsLoaded failed.1 = false /\
     captureBtn_disabled failed.1 = true /\
     captureBtn_text failed.1 = LABEL_UNAVAILABLE /\
     status_text failed.1 = MSG_UNAVAILABLE /\
     status_type failed.1 = warning) /\
    (denied.2 = true /\ modelsLoaded denied.1 = true /\
     captureBtn_disabled denied.1 = true /\
     captureBtn_text denied.1 = LABEL_NO_WEBCAM /\
     ~ clickable denied.1 /\
     status_text denied.1 = MSG_READY_TO_CAPTURE /\
     status_type denied.1 = success) /\
    (ready.2 = true /\ reachable ready.1 /\
     captureBtn_disabled ready.1 = captureBtn_disabled markup /\
     captureBtn_text ready.1 = captureBtn_text markup /\
     status_text ready.1 = MSG_READY_TO_CAPTURE).
Proof.
  intros markup webcam. simpl. split; [by repeat split|]. split.
  - repeat split; try done. by intros [_ ?].
  - repeat split; try done.
    apply (reach_initialized
             (updateStatus MSG_READY_TO_CAPTURE success markup)).
Qed.

(** With the models not loaded a call of [captureFace] only reports it
    and touches nothing else. *)
Example capture_before_models_loaded :
  forall markup d,
    captureFace d (constructed markup) =
    updateStatus MSG_NOT_LOADED error (constructed markup).
Proof. reflexivity. Qed.

End FaceFacts.

(** ** Registration form: payload, outcome of a submission, blocks *)

Section RegistrationMoreFacts.
Import RegistrationForm RecipientBlocks.








(** A signup that succeeds, followed by an upload that fails: the token
    is stored, the error is alerted, and there is no redirect. *)
Example failed_upload_leaves_user_logged_in :
  let div := mkDiv "Asha Rao" "asha@example.org" "9876501234" "71" "female"
               "true" (Some ["scan.pdf"]) in
  let f := mkForm "Ravi Rao" "ravi@example.org" "ravi" "9876543210" "secret"
             [div] in
  List.filter (fun e => negb (isNetworkCall e))
    (submit f (SignupHttp true "" "jwt" [7])
       (fun _ => UploadHttpError "too large")) =
  [Alert MSG_REGISTERING; StoreToken "jwt";
   Alert "Failed to upload medical report: Failed to upload report: too large"].
Proof. by vm_compute. Qed.





End RegistrationMoreFacts.

(** ** Registration form: ages in digits, added blocks *)

Section RecipientBlocksFacts.
Import RegistrationForm RecipientBlocks.

Lemma isDigit_cases c :
  isDigit c = true ->
  In c ["0"; "1"; "2"; "3"; "4"; "5"; "6"; "7"; "8"; "9"]%char.
Proof.
  destruct c as [[] [] [] [] [] [] [] []]; try discriminate; intros _; simpl;
    repeat (first [left; reflexivity | right]).
Qed.

Lemma digitValue_digit c :
  isDigit c = true ->
  exists v, JS.digitValue 10 c = Some v /\ (0 <= v <= 9)%Z /\
            (v = 0%Z <-> Ascii.eqb c "0" = true).
Proof.
  intros H. apply isDigit_cases in H. simpl in H.
  repeat destruct H as [<-|H]; try done;
    eexists; (split; [vm_compute; reflexivity|]); (split; [lia|]); by split.
Qed.

Lemma readDigits_digits s a :
  allDigits s = true -> (0 <= a)%Z ->
  exists r, JS.readDigits 10 s (Some a) = Some r /\ (a <= r)%Z /\
            (r = 0%Z <-> a = 0%Z /\ allZeros s = true).
Proof.
  revert a. induction s as [|c rest IH]; intros a Hs Ha; simpl in *.
  - exists a. by split_and!; [|lia|split; [|intros [? _]]].
  - apply andb_true_iff in Hs as [Hc Hrest].
    destruct (digitValue_digit c Hc) as (v & -> & Hv & Hz).
    destruct (IH (a * 10 + v)%Z Hrest ltac:(lia)) as (r & -> & Hle & Hr).
    exists r. split; [done|]. split; [lia|].
    rewrite Hr, andb_true_iff, <- Hz. split.
    + intros [H0 ?]. split_and!; try done; lia.
    + intros (-> & -> & ?). by split.
Qed.

Lemma parseInt_digits s :
  allDigits s = true -> JS.parseInt s = JS.readDigits 10 s None.
Proof.
  destruct s as [|c rest]; [done|]. simpl. intros [Hc Hrest]%andb_true_iff.
  apply isDigit_cases in Hc. simpl in Hc.
  assert (Hid : forall o : option Z, (fun n => 1 * n)%Z <$> o = o).
  { intros [n|]; simpl; [f_equal; lia|done]. }
  repeat destruct Hc as [<-|Hc]; try done;
    try (unfold JS.parseInt; simpl; apply Hid).
  destruct rest as [|d rest']; [done|].
  simpl in Hrest. apply andb_true_iff in Hrest as [Hd _].
  apply isDigit_cases in Hd. simpl in Hd.
  repeat destruct Hd as [<-|Hd]; try done;
    unfold JS.parseInt; simpl; apply Hid.
Qed.

(** X19. An age typed with decimal digits only passes the age test
    exactly when one of the digits is not 0; so "0" and "000" are
    refused like an empty field, and any positive whole number is
    accepted. *)
Theorem digit_age_passes_iff_not_all_zeros :
  forall s : string,
    s <> ""%string -> allDigits s = true ->
    (ageOk (JS.parseInt s) = true <-> allZeros s = false) /\
    exists n, JS.parseInt s = Some n /\ (0 <= n)%Z.
Proof.
  intros s Hne Hs. rewrite (parseInt_digits s Hs).
  destruct s as [|c rest]; [done|]. simpl in *.
  apply andb_true_iff in Hs as [Hc Hrest].
  destruct (digitValue_digit c Hc) as (v & -> & Hv & Hz).
  destruct (readDigits_digits rest (0 * 10 + v)%Z Hrest ltac:(lia))
    as (r & -> & Hle & Hr).
  split; [|exists r; split; [done|lia]].
  simpl. rewrite negb_true_iff, Z.eqb_neq, Hr, andb_false_iff.
  destruct (Ascii.eqb c "0") eqn:Ec; destruct (allZeros rest) eqn:Er.
  - assert (v = 0%Z) by (by apply Hz).
    split; [intros Hn; destruct Hn; split; [lia|done]
           | intros [?|?]; discriminate].
  - split; [intros _; by right | intros _ [_ ?]; discriminate].
  - split; [intros _; by left|]. intros _ [Hv' _].
    assert (Hv0 : v = 0%Z) by lia. apply Hz in Hv0. discriminate.
  - split; [intros _; by left|]. intros _ [_ ?]. discriminate.
Qed.

Lemma digit_age_passes_iff_not_all_zeros_witness :
  ageOk (JS.parseInt "071") = true /\ ageOk (JS.parseInt "000") = false.
Proof.
  split.
  - apply (digit_age_passes_iff_not_all_zeros "071");
      [discriminate | reflexivity | reflexivity].
  - destruct (ageOk (JS.parseInt "000")) eqn:E; [|reflexivity].
    apply (digit_age_passes_iff_not_all_zeros "000") in E;
      [discriminate | discriminate | reflexivity].
Defined.

(** What [parseInt] makes of other texts. *)
Example parseInt_samples :
  JS.parseInt "  42abc" = Some 42%Z /\ JS.parseInt "0x1A" = Some 26%Z /\
  JS.parseInt "-0" = Some 0%Z /\ JS.parseInt "abc" = None /\
  JS.parseInt "" = None /\ JS.parseInt "+7.9" = Some 7%Z.
Proof. by vm_compute. Qed.



(** Every block can be removed; the form is then sent with no recipient,
    and no block can be added any more. *)
Example no_block_left :
  let div := mkDiv "Asha Rao" "asha@example.org" "9876501234" "71" "female"
               "true" None in
  let f := mkForm "Ravi Rao" "ravi@example.org" "ravi" "9876543210" "secret" in
  removeRecipient 0 [div] = [] /\
  addRecipient (removeRecipient 0 [div]) = [] /\
  validate (f []) =
    inr (mkPayload "Ravi Rao" "ravi@example.org" "ravi" "9876543210" "secret" []).
Proof. by vm_compute. Qed.

End RecipientBlocksFacts.

(** ** Weather widget *)

Section WeatherWidgetFacts.
Import WeatherWidget.

Lemma displayAfter_snoc fetches data :
  displayAfter (fetches ++ [data]) =
  updateWeatherDisplay data (displayAfter fetches).
Proof. unfold displayAfter. by rewrite foldl_app. Qed.

(** X21. After any sequence of fetches the widget shows the data of the
    last fetch that returned any, and the placeholders when none did: a
    fetch that fails changes nothing, so an old reading stays on display
    with no sign that it is old. *)
Theorem widget_shows_last_fetched_data :
  forall fetches : list fetched,
    displayAfter fetches =
    match lastData fetches with
    | Some data => render data
    | None => placeholders
    end /\
    displayAfter (fetches ++ [None]) = displayAfter fetches.
Proof.
  intros fetches. split; [|by rewrite displayAfter_snoc].
  induction fetches as [|data fetches IH] using rev_ind; [done|].
  rewrite displayAfter_snoc. unfold lastData in *.
  rewrite omap_app. destruct data as [w|]; simpl.
  - by rewrite last_snoc.
  - by rewrite app_nil_r.
Qed.

Example weather_keeps_old_reading :
  tempValue (displayAfter [Some (mkWeather "Pune" "31" "40" "88"); None; None])
    = "31°C"%string /\
  location (displayAfter [Some (mkWeather "" "31" "40" "88")]) = "Unknown"%string.
Proof. by vm_compute. Qed.

End WeatherWidgetFacts.
